(** * Normalizing flows and flow-augmented VAE latents (HW3/Q2.ipynb)

    Shallow embedding of the flow part of the notebook over the real
    numbers: tensors are lists of rows, the tensor runtime's [tanh],
    [log], [exp], [norm] are the real functions, and the runtime's
    exceptions (negative tensor sizes, [torch.cat] of an empty list) are
    [None]. *)

From Stdlib Require Import Reals Lra Lia ZArith List.
Import ListNotations.
Open Scope R_scope.

(** ** Tensors *)

(** A row of a batch, and a batch of shape (batch_size, dim). *)
Abbreviation row := (list R).
Abbreviation batch := (list row).

Fixpoint zip_with {A B C} (f : A -> B -> C) (a : list A) (b : list B) : list C :=
  match a, b with
  | x :: a', y :: b' => f x y :: zip_with f a' b'
  | _, _ => []
  end.

(** Elementwise operations on rows and on batches of equal shape. *)
Definition vadd (a b : row) : row := zip_with Rplus a b.
Definition vsub (a b : row) : row := zip_with Rminus a b.
Definition bzip (f : R -> R -> R) (a b : batch) : batch := zip_with (zip_with f) a b.
Definition bmap (f : R -> R) (a : batch) : batch := map (map f) a.

Definition rsum (l : list R) : R := fold_right Rplus 0 l.
(** [tensor.sum()] over every element of a batch. *)
Definition bsum (a : batch) : R := rsum (map rsum a).

(** [torch.dot] / one output column of [F.linear] or [torch.mm]. *)
Definition dot (a b : row) : R := rsum (zip_with Rmult a b).

(** [torch.norm(v)]: the Euclidean norm. *)
Definition norm (a : row) : R := sqrt (rsum (map (fun x => x * x) a)).

Definition tanh (x : R) : R := (exp x - exp (- x)) / (exp x + exp (- x)).

(** The additive guard before each logarithm. *)
Definition log_eps : R := 1e-9.

(** [F.linear(z, weight, bias)] with a (1, dim) weight and a (1) bias:
    one value per sample, i.e. the (batch_size, 1) column. *)
Definition linear (z : batch) (w : row) (b : R) : list R :=
  map (fun x => dot x w + b) z.

(** ** Flows *)

Record PlanarFlow := {
  weight : row;   (* (1, dim) *)
  scale : row;    (* (1, dim) *)
  bias : R        (* (1)      *)
}.

Record RadialFlow := {
  z0 : row;       (* (1, dim) *)
  alpha : R;      (* (1)      *)
  beta : R;       (* (1)      *)
  rdim : nat      (* self.dim *)
}.

(** [PlanarFlow._call]: [z + self.scale * torch.tanh(f_z)], the (B, 1)
    column [tanh(f_z)] broadcast against the (1, dim) row [scale]. *)
Definition planar_call (p : PlanarFlow) (z : batch) : batch :=
  zip_with (fun x f => vadd x (map (fun u => u * tanh f) (scale p)))
    z (linear z (weight p) (bias p)).

(** [PlanarFlow.log_abs_det_jacobian]: a (B, 1) column. *)
Definition planar_ladj (p : PlanarFlow) (z : batch) : list R :=
  map (fun f =>
         let psi := map (fun w => (1 - tanh f ^ 2) * w) (weight p) in
         let det_grad := 1 + dot psi (scale p) in
         ln (Rabs det_grad + log_eps))
    (linear z (weight p) (bias p)).

(** [RadialFlow._call]: [r] is the (B, 1) column of row norms. *)
Definition radial_call (q : RadialFlow) (z : batch) : batch :=
  map (fun x =>
         let r := norm (vsub x (z0 q)) in
         let h := 1 / (alpha q + r) in
         vadd x (map (fun d => beta q * h * d) (vsub x (z0 q))))
    z.

Definition radial_ladj (q : RadialFlow) (z : batch) : list R :=
  map (fun x =>
         let r := norm (vsub x (z0 q)) in
         let h := 1 / (alpha q + r) in
         let hp := - 1 / (alpha q + r) ^ 2 in
         let bh := beta q * h in
         let det_grad := ((1 + bh) ^ rdim q - 1) * (1 + bh + beta q * hp * r) in
         ln (Rabs det_grad + log_eps))
    z.

(** The [Flow] base class: calling a flow object goes through
    [Transform.__call__], which (with no cache) is [self._call]. *)
Inductive Flow :=
| Planar (p : PlanarFlow)
| Radial (q : RadialFlow).

Definition flow_call (f : Flow) (z : batch) : batch :=
  match f with
  | Planar p => planar_call p z
  | Radial q => radial_call q z
  end.

Definition log_abs_det_jacobian (f : Flow) (z : batch) : list R :=
  match f with
  | Planar p => planar_ladj p z
  | Radial q => radial_ladj q z
  end.

(** ** Construction

    [Flow.init_parameters] fills every parameter, in registration order,
    with draws of [uniform_(-0.01, 0.01)]; the draws are the stream [rnd]
    and the construction threads the position [n] of the next draw.
    [torch.Tensor(1, dim)] raises on a negative [dim]. *)

Definition draws (rnd : nat -> R) (n k : nat) : row := map rnd (seq n k).

Definition planar_init (rnd : nat -> R) (dim : Z) (n : nat) : option (PlanarFlow * nat) :=
  if (dim <? 0)%Z then None
  else
    let d := Z.to_nat dim in
    Some ({| weight := draws rnd n d;
             scale := draws rnd (n + d)%nat d;
             bias := rnd (n + d + d)%nat |}, S (n + d + d)).

Definition radial_init (rnd : nat -> R) (dim : Z) (n : nat) : option (RadialFlow * nat) :=
  if (dim <? 0)%Z then None
  else
    let d := Z.to_nat dim in
    Some ({| z0 := draws rnd n d;
             alpha := rnd (n + d)%nat;
             beta := rnd (S (n + d));
             rdim := d |}, S (S (n + d))).

(** The flow classes a [blocks] list may name. *)
Inductive Block := PlanarBlock | RadialBlock.

(** [b_flow(dim)]. *)
Definition block_init (rnd : nat -> R) (b : Block) (dim : Z) (n : nat) : option (Flow * nat) :=
  match b with
  | PlanarBlock =>
      match planar_init rnd dim n with
      | Some (p, n') => Some (Planar p, n')
      | None => None
      end
  | RadialBlock =>
      match radial_init rnd dim n with
      | Some (q, n') => Some (Radial q, n')
      | None => None
      end
  end.

(** Inner loop [for b_flow in blocks: biject.append(b_flow(dim))]. *)
Fixpoint init_blocks (rnd : nat -> R) (dim : Z) (blocks : list Block)
    (biject : list Flow) (n : nat) : option (list Flow * nat) :=
  match blocks with
  | [] => Some (biject, n)
  | b :: bs =>
      match block_init rnd b dim n with
      | Some (f, n') => init_blocks rnd dim bs (biject ++ [f]) n'
      | None => None
      end
  end.

(** Outer loop [for f in range(flow_length)], [k] iterations left. *)
Fixpoint init_reps (rnd : nat -> R) (dim : Z) (blocks : list Block) (k : nat)
    (biject : list Flow) (n : nat) : option (list Flow * nat) :=
  match k with
  | O => Some (biject, n)
  | S k' =>
      match init_blocks rnd dim blocks biject n with
      | Some (biject', n') => init_reps rnd dim blocks k' biject' n'
      | None => None
      end
  end.

(** The loop of [NormalizingFlow.__init__(dim, blocks, flow_length, density)]
    that fills [biject] ([for f in range(flow_length): for b_flow in blocks:
    biject.append(b_flow(dim))]): the bijector list and the generator's
    next position. [range(flow_length)] is empty for a negative
    [flow_length]. The statements after the loop are [nf_construct]. *)
Definition nf_init (rnd : nat -> R) (dim : Z) (blocks : list Block) (flow_length : Z)
    (n : nat) : option (list Flow * nat) :=
  init_reps rnd dim blocks (Z.to_nat flow_length) [] n.

(** What [distrib.TransformedDistribution(density, ...)] reads of the
    [density] argument: it is a torch [Distribution] (whose [batch_shape]
    and [event_shape] it reads), or something else, on which reading
    [batch_shape] raises [AttributeError]. *)
Inductive Density := Distribution | NotDistribution.

(** [distrib.TransformedDistribution(density, transform.ComposeTransform(biject))]
    (torch >= 1.8): after reading the base shapes it reads
    [ComposeTransform([t]).domain], which is [t.domain]; for
    [t = ComposeTransform(biject)] that is [constraints.real] when [biject]
    is empty and [biject[0].domain] otherwise. [Flow] and its subclasses only
    annotate [domain] (inherited from [Transform]) and never set it, so the
    read raises [AttributeError]. With an empty [biject] every shape check
    passes (event dimension 0). *)
Definition transformed_ok (density : Density) (biject : list Flow) : bool :=
  match density, biject with
  | NotDistribution, _ => false
  | Distribution, [] => true
  | Distribution, _ :: _ => false
  end.

(** [NormalizingFlow.__init__(dim, blocks, flow_length, density)] as a
    whole: the loop ([nf_init]), then [ComposeTransform(biject)] and
    [nn.ModuleList(biject)] (which do not fail), then [final_density] (line
    [self.final_density = distrib.TransformedDistribution(...)]). The
    result is the bijector list and the generator's next position. *)
Definition nf_construct (rnd : nat -> R) (dim : Z) (blocks : list Block) (flow_length : Z)
    (density : Density) (n : nat) : option (list Flow * nat) :=
  match nf_init rnd dim blocks flow_length n with
  | None => None
  | Some (biject, n') => if transformed_ok density biject then Some (biject, n') else None
  end.

Definition flow_kind (f : Flow) : Block :=
  match f with Planar _ => PlanarBlock | Radial _ => RadialBlock end.

(** ** [NormalizingFlow.forward] *)

(** [for b in range(len(self.bijectors)):
       self.log_det.append(self.bijectors[b].log_abs_det_jacobian(z))
       z = self.bijectors[b](z)] *)
Fixpoint forward_loop (fs : list Flow) (z : batch) (log_det : list (list R))
    : batch * list (list R) :=
  match fs with
  | [] => (z, log_det)
  | f :: fs' => forward_loop fs' (flow_call f z) (log_det ++ [log_abs_det_jacobian f z])
  end.

(** [forward] as a value: the list starts empty ([self.log_det = []]);
    its aliasing with the attribute is modelled in [Store] below. *)
Definition nf_forward (fs : list Flow) (z : batch) : batch * list (list R) :=
  forward_loop fs z [].

(** ** The heap behind [self.log_det]

    [forward] rebinds the attribute [self.log_det] to a new empty list,
    appends to the list the attribute points to, and returns that list
    itself, so the attribute and the returned value alias. Python lists
    live in a heap addressed by [nat] locations. *)
Module Store.

Fixpoint update_nth {A} (l : list A) (i : nat) (g : A -> A) : list A :=
  match l, i with
  | [], _ => []
  | x :: l', O => g x :: l'
  | x :: l', S i' => x :: update_nth l' i' g
  end.

(** The object's [log_det] attribute and the heap of Python lists. *)
Record State := { log_det : nat; heap : list (list (list R)) }.

(** [self.log_det = []] at the end of [__init__]. *)
Definition init_state (h : list (list (list R))) : State :=
  {| log_det := length h; heap := h ++ [[]] |}.

Fixpoint loop (fs : list Flow) (z : batch) (st : State) : batch * State :=
  match fs with
  | [] => (z, st)
  | f :: fs' =>
      loop fs' (flow_call f z)
        {| log_det := log_det st;
           heap := update_nth (heap st) (log_det st)
                     (fun l => l ++ [log_abs_det_jacobian f z]) |}
  end.

(** [NormalizingFlow.forward]: returns [z] and the location of the list
    [self.log_det] points to. *)
Definition forward (fs : list Flow) (z : batch) (st : State) : (batch * nat) * State :=
  let st1 := {| log_det := length (heap st); heap := heap st ++ [[]] |} in
  let '(z', st2) := loop fs z st1 in
  ((z', log_det st2), st2).

End Store.

(** ** The VAE latent step *)

(** [VAE.latent]; [eps] is the draw [q.sample((n_batch, ))]. *)
Definition latent_plain (x mu sigma eps : batch) : batch * R :=
  let n_batch := length x in
  let z := bzip Rplus (bzip Rmult sigma eps) mu in
  let kl_div :=
    -0.5 * bsum (bzip Rminus
                   (bzip Rminus (bmap (fun s => 1 + s) sigma) (bmap (fun m => m ^ 2) mu))
                   (bmap exp sigma)) in
  (z, kl_div / INR n_batch).

(** [torch.cat] along dimension 0; it raises on an empty list. *)
Definition cat (l : list (list R)) : option (list R) :=
  match l with
  | [] => None
  | _ => Some (concat l)
  end.

(** [VAENormalizingFlow.latent], with [self.flow] the bijectors of a
    [NormalizingFlow]. *)
Definition latent_flow (flow : list Flow) (x mu sigma eps : batch) : option (batch * R) :=
  let n_batch := length x in
  let z_0 := bzip Rplus (bzip Rmult sigma eps) mu in
  let '(z_k, list_ladj) := nf_forward flow z_0 in
  let log_p_zk := bzip Rmult (bmap (fun v => -0.5 * v) z_k) z_k in
  let d := bzip Rminus z_0 mu in
  let log_q_z0 :=
    bmap (fun v => -0.5 * v)
      (bzip Rplus (bmap ln sigma) (bzip Rmult (bzip Rmult d d) (bmap Rinv sigma))) in
  let logs := bsum (bzip Rminus log_q_z0 log_p_zk) in
  match cat list_ladj with
  | None => None
  | Some ladj => Some (z_k, (logs - rsum ladj) / INR n_batch)
  end.

(** ** Shapes *)

Definition has_shape (B D : nat) (z : batch) : Prop :=
  length z = B /\ Forall (fun x => length x = D) z.

(** The parameters of a flow built for dimension [dim]. *)
Definition flow_wf (dim : nat) (f : Flow) : Prop :=
  match f with
  | Planar p => length (weight p) = dim /\ length (scale p) = dim
  | Radial q => length (z0 q) = dim /\ rdim q = dim
  end.

(** The batch after the flows [fs], applied in list order. *)
Fixpoint apply_flows (fs : list Flow) (z : batch) : batch :=
  match fs with
  | [] => z
  | f :: fs' => apply_flows fs' (flow_call f z)
  end.

(** ** Helper lemmas *)

Lemma zip_with_length {A B C} (f : A -> B -> C) a b :
  length (zip_with f a b) = Nat.min (length a) (length b).
Proof.
  revert b; induction a as [|x a IH]; intros [|y b]; simpl; auto.
Qed.

Lemma draws_length rnd n k : length (draws rnd n k) = k.
Proof. unfold draws; now rewrite length_map, length_seq. Qed.

Lemma of_nat_ltb_false (d : nat) : (Z.of_nat d <? 0)%Z = false.
Proof. apply Z.ltb_ge; lia. Qed.

Lemma block_init_ok rnd b (dim n : nat) :
  exists f n', block_init rnd b (Z.of_nat dim) n = Some (f, n')
               /\ flow_kind f = b /\ flow_wf dim f.
Proof.
  destruct b; simpl; unfold planar_init, radial_init;
    rewrite of_nat_ltb_false, Nat2Z.id; eexists _, _; split; try reflexivity;
    simpl; rewrite ?draws_length; auto.
Qed.

Lemma init_blocks_ok rnd (dim : nat) bs :
  forall acc n, exists fs n',
    init_blocks rnd (Z.of_nat dim) bs acc n = Some (acc ++ fs, n')
    /\ map flow_kind fs = bs /\ Forall (flow_wf dim) fs.
Proof.
  induction bs as [|b bs IH]; intros acc n; simpl.
  - exists [], n; rewrite app_nil_r; auto.
  - destruct (block_init_ok rnd b dim n) as (f & n1 & -> & Hk & Hw).
    destruct (IH (acc ++ [f]) n1) as (fs & n' & -> & Hm & Hf).
    exists (f :: fs), n'; rewrite <- app_assoc; simpl; subst; auto.
Qed.

Lemma init_reps_ok rnd (dim : nat) bs k :
  forall acc n, exists fs n',
    init_reps rnd (Z.of_nat dim) bs k acc n = Some (acc ++ fs, n')
    /\ map flow_kind fs = concat (repeat bs k) /\ Forall (flow_wf dim) fs.
Proof.
  induction k as [|k IH]; intros acc n; simpl.
  - exists [], n; rewrite app_nil_r; auto.
  - destruct (init_blocks_ok rnd dim bs acc n) as (fs1 & n1 & -> & Hm1 & Hf1).
    destruct (IH (acc ++ fs1) n1) as (fs2 & n' & -> & Hm2 & Hf2).
    exists (fs1 ++ fs2), n'; rewrite <- app_assoc, map_app, Hm1, Hm2.
    split; [reflexivity | split; [reflexivity | now apply Forall_app]].
Qed.

Lemma nf_init_ok rnd (dim fl : nat) bs n :
  exists fs n', nf_init rnd (Z.of_nat dim) bs (Z.of_nat fl) n = Some (fs, n')
    /\ map flow_kind fs = concat (repeat bs fl) /\ Forall (flow_wf dim) fs.
Proof.
  unfold nf_init; rewrite Nat2Z.id.
  exact (init_reps_ok rnd dim bs fl [] n).
Qed.

Lemma length_concat_repeat {A} (l : list A) k :
  length (concat (repeat l k)) = (k * length l)%nat.
Proof.
  induction k as [|k IH]; simpl; auto.
  rewrite length_app, IH; lia.
Qed.

(** ** C6: the constructor's loop order *)

(** C6. The loop of [NormalizingFlow.__init__] (lines [biject = []] to
    [biject.append(b_flow(dim))]) with a dimension [dim], a block list
    [blocks] and a repetition count [flow_length] builds
    [flow_length * len(blocks)] flows, whose classes are the block list
    repeated [flow_length] times (outer loop over repetitions, inner loop
    over the blocks), each built for [dim]; for [blocks = [PlanarFlow]],
    [flow_length = 3] and [dim = 4] these are three planar flows. *)
Theorem nf_init_order :
  (forall rnd (dim flow_length : nat) blocks n,
    exists fs n',
      nf_init rnd (Z.of_nat dim) blocks (Z.of_nat flow_length) n = Some (fs, n')
      /\ length fs = (flow_length * length blocks)%nat
      /\ map flow_kind fs = concat (repeat blocks flow_length)
      /\ Forall (flow_wf dim) fs)
  /\ (forall rnd n,
    exists fs n',
      nf_init rnd 4%Z [PlanarBlock] 3%Z n = Some (fs, n')
      /\ length fs = 3%nat
      /\ map flow_kind fs = [PlanarBlock; PlanarBlock; PlanarBlock]
      /\ Forall (flow_wf 4) fs).
Proof.
  split.
  - intros rnd dim fl bs n.
    destruct (nf_init_ok rnd dim fl bs n) as (fs & n' & H & Hm & Hw).
    exists fs, n'; repeat split; auto.
    rewrite <- (length_map flow_kind), Hm; apply length_concat_repeat.
  - intros rnd n.
    destruct (nf_init_ok rnd 4 3 [PlanarBlock] n) as (fs & n' & H & Hm & Hw).
    exists fs, n'; repeat split; auto.
    rewrite <- (length_map flow_kind), Hm; reflexivity.
Qed.

(** C6 (counterexample). The whole constructor
    [NormalizingFlow(4, [PlanarFlow], 3, density)], with [density] a torch
    distribution, does not return the three planar flows: its loop builds
    them, then [distrib.TransformedDistribution(density, self.transforms)]
    raises, the flows having no [domain]. *)
Theorem nf_construct_planar3_raises :
  nf_construct (fun _ => 0) 4%Z [PlanarBlock] 3%Z Distribution O = None.
Proof. reflexivity. Qed.

(** ** Shape preservation and the forward trace *)

Lemma planar_call_shape p B D z :
  length (scale p) = D -> has_shape B D z -> has_shape B D (planar_call p z).
Proof.
  intros Hs [Hl Hr]; subst B; unfold planar_call, linear.
  induction Hr as [|x z Hx Hr IH]; simpl.
  - split; constructor.
  - destruct IH as [IHl IHr]; split; [simpl; now f_equal|].
    constructor; auto.
    unfold vadd; rewrite zip_with_length, length_map, Hx, Hs; apply Nat.min_id.
Qed.

Lemma radial_call_shape q B D z :
  length (z0 q) = D -> has_shape B D z -> has_shape B D (radial_call q z).
Proof.
  intros Hs [Hl Hr]; subst B; unfold radial_call; split.
  - now rewrite length_map.
  - apply Forall_map; eapply Forall_impl; [|exact Hr]; intros x Hx; simpl.
    unfold vadd, vsub; rewrite zip_with_length, length_map, zip_with_length, Hx, Hs.
    now rewrite !Nat.min_id.
Qed.

Lemma flow_call_shape D B f z :
  flow_wf D f -> has_shape B D z -> has_shape B D (flow_call f z).
Proof.
  destruct f; simpl; intros [H1 H2].
  - now apply planar_call_shape.
  - now apply radial_call_shape.
Qed.

Lemma apply_flows_shape D B fs :
  Forall (flow_wf D) fs -> forall z, has_shape B D z -> has_shape B D (apply_flows fs z).
Proof.
  induction 1 as [|f fs Hf Hfs IH]; intros z Hz; simpl; auto.
  apply IH; now apply flow_call_shape.
Qed.

(** The log-determinants [forward] records, flow by flow. *)
Fixpoint trace (fs : list Flow) (z : batch) : list (list R) :=
  match fs with
  | [] => []
  | f :: fs' => log_abs_det_jacobian f z :: trace fs' (flow_call f z)
  end.

Lemma forward_loop_trace fs :
  forall z acc, forward_loop fs z acc = (apply_flows fs z, acc ++ trace fs z).
Proof.
  induction fs as [|f fs IH]; intros z acc; simpl.
  - now rewrite app_nil_r.
  - rewrite IH, <- app_assoc; reflexivity.
Qed.

Lemma trace_length fs : forall z, length (trace fs z) = length fs.
Proof. induction fs; simpl; auto. Qed.

Lemma trace_nth fs :
  forall i f z, nth_error fs i = Some f ->
    nth_error (trace fs z) i = Some (log_abs_det_jacobian f (apply_flows (firstn i fs) z)).
Proof.
  induction fs as [|g fs IH]; intros [|i] f z H; simpl in *; try discriminate.
  - now injection H as ->.
  - now apply IH.
Qed.

Lemma nf_forward_trace fs z : nf_forward fs z = (apply_flows fs z, trace fs z).
Proof. unfold nf_forward; now rewrite forward_loop_trace. Qed.

Lemma nf_init_wf rnd (D fl : nat) bs n fs n' :
  nf_init rnd (Z.of_nat D) bs (Z.of_nat fl) n = Some (fs, n') -> Forall (flow_wf D) fs.
Proof.
  intros H; destruct (nf_init_ok rnd D fl bs n) as (fs' & n'' & H' & _ & Hw).
  rewrite H in H'; injection H' as -> _; exact Hw.
Qed.

(** ** C1: [NormalizingFlow.forward] *)

(** C1. For flows built by [NormalizingFlow.__init__] for dimension [D]
    and a batch of shape (B, D), [forward] returns one log-determinant per
    flow, the [i]-th being that flow's [log_abs_det_jacobian] at the batch
    before it (the input pushed through the first [i] flows, in list
    order), and the batch pushed through all flows, again of shape (B, D). *)
Theorem nf_forward_spec rnd (D : nat) blocks (flow_length : nat) n fs n' (B : nat) (z : batch)
  (Hinit : nf_init rnd (Z.of_nat D) blocks (Z.of_nat flow_length) n = Some (fs, n'))
  (Hz : has_shape B D z) :
  let '(zk, log_det) := nf_forward fs z in
  length log_det = length fs
  /\ (forall i f, nth_error fs i = Some f ->
        nth_error log_det i = Some (log_abs_det_jacobian f (apply_flows (firstn i fs) z)))
  /\ zk = apply_flows fs z
  /\ has_shape B D zk.
Proof.
  rewrite nf_forward_trace; repeat split.
  - apply trace_length.
  - intros; now apply trace_nth.
  - apply (apply_flows_shape D B fs (nf_init_wf _ _ _ _ _ _ _ Hinit) z Hz).
  - apply (apply_flows_shape D B fs (nf_init_wf _ _ _ _ _ _ _ Hinit) z Hz).
Qed.

Lemma nf_forward_spec_witness :
  nf_init (fun _ => 0) 2%Z [PlanarBlock; RadialBlock] 2%Z 0 <> None
  /\ has_shape 1 2 [[1; 2]]
  /\ (forall fs n', nf_init (fun _ => 0) (Z.of_nat 2) [PlanarBlock; RadialBlock] (Z.of_nat 2) 0
                    = Some (fs, n') ->
      let '(zk, log_det) := nf_forward fs [[1; 2]] in
      length log_det = length fs
      /\ (forall i f, nth_error fs i = Some f ->
            nth_error log_det i
            = Some (log_abs_det_jacobian f (apply_flows (firstn i fs) [[1; 2]])))
      /\ zk = apply_flows fs [[1; 2]]
      /\ has_shape 1 2 zk).
Proof.
  split; [discriminate|].
  split; [repeat constructor|].
  intros fs n' H.
  apply (nf_forward_spec (fun _ => 0) 2 [PlanarBlock; RadialBlock] 2 0 fs n' 1 [[1; 2]] H).
  repeat constructor.
Defined.

(** ** Index form of the tensor operations *)

(** [sum_{j < n} f j]. *)
Fixpoint sum_to (n : nat) (f : nat -> R) : R :=
  match n with
  | O => 0
  | S n' => f O + sum_to n' (fun j => f (S j))
  end.

(** Element [(i, j)] of a batch. *)
Definition get (z : batch) (i j : nat) : R := nth j (nth i z []) 0.

Lemma sum_to_ext n : forall f g, (forall j, (j < n)%nat -> f j = g j) -> sum_to n f = sum_to n g.
Proof.
  induction n as [|n IH]; intros f g H; simpl; auto.
  f_equal; [apply H; lia | apply IH; intros; apply H; lia].
Qed.

Lemma rsum_zip_with (f : R -> R -> R) a :
  forall b n, length a = n -> length b = n ->
    rsum (zip_with f a b) = sum_to n (fun j => f (nth j a 0) (nth j b 0)).
Proof.
  induction a as [|x a IH]; intros [|y b] n Ha Hb; simpl in *; subst n; try discriminate; auto.
  injection Hb as Hb; simpl; f_equal; now apply IH.
Qed.

Lemma map_zip_with {A B C D} (g : C -> D) (f : A -> B -> C) a b :
  map g (zip_with f a b) = zip_with (fun x y => g (f x y)) a b.
Proof. revert b; induction a; intros [|y b]; simpl; f_equal; auto. Qed.

Lemma nth_zip_with {A B C} (f : A -> B -> C) a b j da db dc :
  (j < length a)%nat -> (j < length b)%nat ->
  nth j (zip_with f a b) dc = f (nth j a da) (nth j b db).
Proof.
  revert a b; induction j as [|j IH]; intros [|x a] [|y b] Ha Hb; simpl in *; try lia; auto.
  apply IH; lia.
Qed.

Lemma nth_map_lt {A B} (f : A -> B) l j da db :
  (j < length l)%nat -> nth j (map f l) db = f (nth j l da).
Proof.
  intros H; rewrite (nth_indep _ db (f da)) by (now rewrite length_map).
  apply map_nth.
Qed.

Lemma dot_sum_to a b n :
  length a = n -> length b = n -> dot a b = sum_to n (fun j => nth j a 0 * nth j b 0).
Proof. apply rsum_zip_with. Qed.

Lemma norm_sum_to a b n :
  length a = n -> length b = n ->
  norm (vsub a b) = sqrt (sum_to n (fun j => (nth j a 0 - nth j b 0) ^ 2)).
Proof.
  intros Ha Hb; unfold norm, vsub; rewrite map_zip_with.
  rewrite (rsum_zip_with _ a b n Ha Hb); f_equal.
  apply sum_to_ext; intros; ring.
Qed.

Lemma tanh_0 : tanh 0 = 0.
Proof. unfold tanh; rewrite Ropp_0, exp_0; field_simplify; lra. Qed.

(** The row [i] of a batch whose rows have length [D]. *)
Lemma row_length D (z : batch) i :
  Forall (fun x => length x = D) z -> (i < length z)%nat -> length (nth i z []) = D.
Proof. intros H Hi; exact (proj1 (Forall_nth _ _) H i [] Hi). Qed.

(** The pre-activation [w . z_i + b] of sample [i]. *)
Lemma linear_nth z w b D i :
  length w = D -> Forall (fun x => length x = D) z -> (i < length z)%nat ->
  nth i (linear z w b) 0 = sum_to D (fun k => nth k w 0 * get z i k) + b.
Proof.
  intros Hw Hz Hi; unfold linear.
  rewrite (nth_map_lt _ _ _ [] 0 Hi); cbv beta; f_equal.
  rewrite (dot_sum_to _ _ D); [| apply (row_length D z i Hz Hi) | exact Hw].
  apply sum_to_ext; intros; unfold get; apply Rmult_comm.
Qed.

(** ** C7: the planar forward transform *)

(** C7. For a planar flow with weight [w] and scale [u] of length [D] and
    a batch [z] of rows of length [D], [PlanarFlow._call] returns a batch
    with the same rows, whose element [(i, j)] is
    [z_ij + u_j * tanh(w . z_i + b)]. *)
Theorem planar_call_formula p D z
  (Hw : length (weight p) = D) (Hu : length (scale p) = D)
  (Hz : Forall (fun x => length x = D) z) :
  length (planar_call p z) = length z
  /\ forall i j, (i < length z)%nat -> (j < D)%nat ->
     get (planar_call p z) i j
     = get z i j + nth j (scale p) 0
                   * tanh (sum_to D (fun k => nth k (weight p) 0 * get z i k) + bias p).
Proof.
  unfold planar_call; split.
  - rewrite zip_with_length; unfold linear; rewrite length_map; apply Nat.min_id.
  - intros i j Hi Hj.
    assert (Hl : (i < length (linear z (weight p) (bias p)))%nat)
      by (unfold linear; now rewrite length_map).
    unfold get at 1; rewrite (nth_zip_with _ _ _ _ [] 0 [] Hi Hl).
    rewrite (linear_nth z (weight p) (bias p) D i Hw Hz Hi).
    pose proof (row_length D z i Hz Hi) as Hx.
    unfold vadd.
    rewrite (nth_zip_with _ _ _ _ 0 0 0) by (rewrite ?length_map; lia).
    rewrite (nth_map_lt _ _ _ 0 0) by lia.
    reflexivity.
Qed.

Lemma planar_call_formula_witness :
  length [1; 2] = 2%nat /\ length [3; 4] = 2%nat
  /\ Forall (fun x : row => length x = 2%nat) [[5; 6]]
  /\ get (planar_call {| weight := [1; 2]; scale := [3; 4]; bias := 7 |} [[5; 6]]) 0 1
     = get [[5; 6]] 0 1 + nth 1 [3; 4] 0
         * tanh (sum_to 2 (fun k => nth k [1; 2] 0 * get [[5; 6]] 0 k) + 7).
Proof.
  split; [reflexivity|]; split; [reflexivity|]; split; [repeat constructor|].
  apply (planar_call_formula {| weight := [1; 2]; scale := [3; 4]; bias := 7 |} 2 [[5; 6]]);
    simpl; auto; repeat constructor.
Defined.

(** ** Numeric bounds on [exp] and [ln]

    The exponential series at [-x] alternates; for [0 <= x <= 1] its
    partial sums bound [exp (-x)] from both sides. *)

Lemma pow_opp_alt (x : R) (i : nat) : (- x) ^ i = (-1) ^ i * x ^ i.
Proof. induction i as [|i IH]; simpl; [ring|rewrite IH; ring]. Qed.

Lemma exp_neg_alt_bounds (x : R) (N : nat) :
  0 <= x <= 1 ->
  sum_f_R0 (tg_alt (fun n => x ^ n / INR (fact n))) (S (2 * N)) <= exp (- x)
  <= sum_f_R0 (tg_alt (fun n => x ^ n / INR (fact n))) (2 * N).
Proof.
  intros Hx; apply alternated_series_ineq.
  - intros n; unfold Rdiv; rewrite fact_simpl, mult_INR; simpl pow.
    assert (Hf : 0 < INR (fact n)) by apply INR_fact_lt_0.
    assert (Hn : 1 <= INR (S n)) by (rewrite S_INR; pose proof (pos_INR n); lra).
    rewrite Rinv_mult.
    replace (x * x ^ n * (/ INR (S n) * / INR (fact n)))
      with ((x * / INR (S n)) * (x ^ n * / INR (fact n))) by ring.
    rewrite <- (Rmult_1_l (x ^ n * / INR (fact n))) at 2.
    apply Rmult_le_compat_r.
    + apply Rmult_le_pos; [apply pow_le; lra | left; now apply Rinv_0_lt_compat].
    + apply (Rmult_le_reg_r (INR (S n))); [lra|].
      rewrite Rmult_assoc, Rinv_l by lra; lra.
  - apply cv_speed_pow_fact.
  - unfold exp; destruct (exist_exp (- x)) as [l Hl]; simpl.
    intros eps He; destruct (Hl eps He) as [N0 HN]; exists N0; intros n Hn.
    rewrite (sum_eq _ (fun i => / INR (fact i) * (- x) ^ i)).
    + now apply HN.
    + intros i _; unfold tg_alt; rewrite pow_opp_alt; unfold Rdiv; ring.
Qed.

(** Replace [INR (fact k)] by its value. *)
Ltac fact_consts :=
  repeat match goal with
  | |- context [INR (fact ?k)] =>
      let v := eval vm_compute in (Z.of_nat (fact k)) in
      replace (INR (fact k)) with (IZR v) by (rewrite INR_IZR_INZ; reflexivity)
  end.

(** [log(2 + 1e-9)] rounds to 0.6931. *)
Lemma ln_2_eps_bounds : 0.6931 < ln (2 + 1e-9) < 0.6932.
Proof.
  destruct (exp_neg_alt_bounds 0.6931 3) as [Hlo _]; [lra|].
  destruct (exp_neg_alt_bounds 0.6932 3) as [_ Hhi]; [lra|].
  cbn [sum_f_R0 Nat.mul Nat.add] in Hlo, Hhi; unfold tg_alt in Hlo, Hhi.
  fact_consts.
  cbn [sum_f_R0 Nat.mul Nat.add] in Hlo, Hhi.
  revert Hlo Hhi; fact_consts; intros Hlo Hhi.
  assert (E1 : exp 0.6931 * exp (Ropp 0.6931) = 1) by (rewrite <- exp_plus; replace (0.6931 + Ropp 0.6931) with 0 by lra; apply exp_0).
  assert (E2 : exp 0.6932 * exp (Ropp 0.6932) = 1) by (rewrite <- exp_plus; replace (0.6932 + Ropp 0.6932) with 0 by lra; apply exp_0).
  pose proof (exp_pos (- 0.6931)); pose proof (exp_pos (- 0.6932)).
  pose proof (exp_pos 0.6931); pose proof (exp_pos 0.6932).
  split.
  - rewrite <- (ln_exp 0.6931); apply ln_increasing; [apply exp_pos|].
    simpl pow in Hlo.
    match type of Hlo with ?L <= _ =>
      assert (HL : exp 0.6931 * L <= 1) by (apply Rle_trans with (exp 0.6931 * exp (Ropp 0.6931)); [apply Rmult_le_compat_l; lra | lra]) end.
    lra.
  - rewrite <- (ln_exp 0.6932); apply ln_increasing; [lra|].
    simpl pow in Hhi.
    match type of Hhi with _ <= ?U =>
      assert (HU : 1 <= exp 0.6932 * U) by (apply Rle_trans with (exp 0.6932 * exp (Ropp 0.6932)); [lra | apply Rmult_le_compat_l; lra]) end.
    lra.
Qed.

(** ** C2: the planar log-determinant *)

Lemma planar_ladj_nth p D z i
  (Hw : length (weight p) = D) (Hu : length (scale p) = D)
  (Hz : Forall (fun x => length x = D) z) (Hi : (i < length z)%nat) :
  nth i (planar_ladj p z) 0 =
  let f := sum_to D (fun k => nth k (weight p) 0 * get z i k) + bias p in
  let psi := fun j => (1 - tanh f ^ 2) * nth j (weight p) 0 in
  ln (Rabs (1 + sum_to D (fun j => psi j * nth j (scale p) 0)) + 1e-9).
Proof.
  unfold planar_ladj.
  rewrite (nth_map_lt _ _ _ 0 0) by (unfold linear; now rewrite length_map).
  rewrite (linear_nth z (weight p) (bias p) D i Hw Hz Hi); cbv beta zeta.
  set (f := sum_to D (fun k => nth k (weight p) 0 * get z i k) + bias p).
  assert (E : dot (map (fun w => (1 - tanh f ^ 2) * w) (weight p)) (scale p)
              = sum_to D (fun j => (1 - tanh f ^ 2) * nth j (weight p) 0 * nth j (scale p) 0)).
  { rewrite (dot_sum_to _ _ D); [| now rewrite length_map | exact Hu].
    apply sum_to_ext; intros j Hj; f_equal.
    apply (nth_map_lt (fun w => (1 - tanh f ^ 2) * w)); lia. }
  unfold log_eps; now rewrite E.
Qed.

Definition planar_ex : PlanarFlow := {| weight := [1; 0]; scale := [1; 0]; bias := 0 |}.

(** C2. [PlanarFlow.log_abs_det_jacobian] returns one value per sample,
    [log(|1 + psi . u| + 1e-9)] with [psi = (1 - tanh(w . z_i + b)^2) * w];
    for [w = u = [1, 0]], [b = 0] and [z = [[0, 0]]] it is
    [[log(2 + 1e-9)]], a value between 0.6931 and 0.6932, and the forward
    transform gives [[0, 0]]. *)
Theorem planar_ladj_formula :
  (forall p D z,
    length (weight p) = D -> length (scale p) = D -> Forall (fun x => length x = D) z ->
    length (planar_ladj p z) = length z
    /\ forall i, (i < length z)%nat ->
       nth i (planar_ladj p z) 0 =
       let f := sum_to D (fun k => nth k (weight p) 0 * get z i k) + bias p in
       let psi := fun j => (1 - tanh f ^ 2) * nth j (weight p) 0 in
       ln (Rabs (1 + sum_to D (fun j => psi j * nth j (scale p) 0)) + 1e-9))
  /\ planar_ladj planar_ex [[0; 0]] = [ln (2 + 1e-9)]
  /\ planar_call planar_ex [[0; 0]] = [[0; 0]]
  /\ 0.6931 < ln (2 + 1e-9) < 0.6932.
Proof.
  split; [|split; [|split]].
  - intros p D z Hw Hu Hz; split.
    + unfold planar_ladj, linear; now rewrite !length_map.
    + intros i Hi; now apply planar_ladj_nth.
  - unfold planar_ladj, planar_ex, linear, dot, rsum, log_eps; simpl.
    replace (0 * 1 + (0 * 0 + 0) + 0) with 0 by ring; rewrite tanh_0.
    do 3 f_equal; rewrite Rabs_right; lra.
  - unfold planar_call, planar_ex, linear, dot, rsum, vadd; simpl.
    replace (0 * 1 + (0 * 0 + 0) + 0) with 0 by ring; rewrite tanh_0.
    f_equal; f_equal; [|f_equal]; ring.
  - exact ln_2_eps_bounds.
Qed.

Lemma planar_ladj_formula_witness :
  length [1; 2] = 2%nat /\ length [3; 4] = 2%nat
  /\ Forall (fun x : row => length x = 2%nat) [[5; 6]]
  /\ length (planar_ladj {| weight := [1; 2]; scale := [3; 4]; bias := 7 |} [[5; 6]]) = 1%nat.
Proof.
  split; [reflexivity|]; split; [reflexivity|]; split; [repeat constructor|].
  apply (proj1 planar_ladj_formula {| weight := [1; 2]; scale := [3; 4]; bias := 7 |} 2%nat [[5; 6]]);
    simpl; auto; repeat constructor.
Defined.

(** ** C3: the radial log-determinant *)

(** C3. For a radial flow with centre [z0] of length [D] and a batch [z]
    of rows of length [D], [RadialFlow.log_abs_det_jacobian] returns one
    value per sample, [log(|det| + 1e-9)] with [r = ||z_i - z0||],
    [h = 1/(alpha + r)], [hp = -1/(alpha + r)^2], [bh = beta * h] and
    [det = ((1 + bh)^dim - 1) * (1 + bh + beta * hp * r)], [dim] being the
    flow's [self.dim]. *)
Theorem radial_ladj_formula q D z
  (Hz0 : length (z0 q) = D) (Hz : Forall (fun x => length x = D) z) :
  length (radial_ladj q z) = length z
  /\ forall i, (i < length z)%nat ->
     nth i (radial_ladj q z) 0 =
     let r := sqrt (sum_to D (fun j => (get z i j - nth j (z0 q) 0) ^ 2)) in
     let h := 1 / (alpha q + r) in
     let hp := - 1 / (alpha q + r) ^ 2 in
     let bh := beta q * h in
     let det := ((1 + bh) ^ rdim q - 1) * (1 + bh + beta q * hp * r) in
     ln (Rabs det + 1e-9).
Proof.
  split.
  - unfold radial_ladj; now rewrite length_map.
  - intros i Hi; unfold radial_ladj.
    rewrite (nth_map_lt _ _ _ [] 0 Hi); cbv beta zeta.
    rewrite (norm_sum_to _ _ D); [| exact (row_length D z i Hz Hi) | exact Hz0].
    reflexivity.
Qed.

Lemma radial_ladj_formula_witness :
  length [1; 2] = 2%nat /\ Forall (fun x : row => length x = 2%nat) [[5; 6]]
  /\ length (radial_ladj {| z0 := [1; 2]; alpha := 1; beta := 2; rdim := 2 |} [[5; 6]]) = 1%nat.
Proof.
  split; [reflexivity|]; split; [repeat constructor|].
  apply (radial_ladj_formula {| z0 := [1; 2]; alpha := 1; beta := 2; rdim := 2 |} 2%nat [[5; 6]]);
    simpl; auto; repeat constructor.
Defined.

(** ** C8: the radial flow fixes its centre *)

Lemma radial_row_at_centre (x : row) (c : R) :
  vadd x (map (fun d => c * d) (vsub x x)) = x.
Proof.
  unfold vadd, vsub; induction x as [|a x IH]; simpl; [reflexivity|].
  rewrite IH; f_equal; ring.
Qed.

(** C8. With [alpha <> 0] and any [beta], the radial forward transform
    maps a batch whose every row is the centre [z0] to itself. *)
Theorem radial_call_centre q z
  (Ha : alpha q <> 0) (Hz : Forall (fun x => x = z0 q) z) :
  radial_call q z = z.
Proof.
  unfold radial_call; induction Hz as [|x z Hx Hz IH]; simpl; [reflexivity|].
  rewrite IH; subst x; f_equal.
  apply (radial_row_at_centre (z0 q)).
Qed.

Lemma radial_call_centre_witness :
  (1 <> 0) /\ Forall (fun x => x = [1; 2]) [[1; 2]; [1; 2]]
  /\ radial_call {| z0 := [1; 2]; alpha := 1; beta := 3; rdim := 2 |} [[1; 2]; [1; 2]]
     = [[1; 2]; [1; 2]].
Proof.
  split; [lra|]; split; [repeat constructor|].
  apply (radial_call_centre {| z0 := [1; 2]; alpha := 1; beta := 3; rdim := 2 |});
    simpl; [lra | repeat constructor].
Defined.

(** ** Elementwise batch operations, index by index *)

Lemma rsum_nth l : rsum l = sum_to (length l) (fun j => nth j l 0).
Proof. induction l as [|a l IH]; simpl; [reflexivity|]; now rewrite IH. Qed.

Lemma shape_bzip f a b B D :
  has_shape B D a -> has_shape B D b -> has_shape B D (bzip f a b).
Proof.
  intros [Ha Fa] [Hb Fb]; unfold bzip; split.
  - rewrite zip_with_length, Ha, Hb; apply Nat.min_id.
  - clear Ha Hb; revert b Fb; induction Fa as [|x a Hx Fa IH]; intros b Fb;
      destruct Fb as [|y b Hy Fb]; simpl; constructor; auto.
    rewrite zip_with_length, Hx, Hy; apply Nat.min_id.
Qed.

Lemma shape_bmap f a B D : has_shape B D a -> has_shape B D (bmap f a).
Proof.
  intros [Ha Fa]; unfold bmap; split.
  - now rewrite length_map.
  - apply Forall_map; eapply Forall_impl; [|exact Fa]; intros x Hx; now rewrite length_map.
Qed.

Lemma get_bzip f a b B D i j :
  has_shape B D a -> has_shape B D b -> (i < B)%nat -> (j < D)%nat ->
  get (bzip f a b) i j = f (get a i j) (get b i j).
Proof.
  intros [Ha Fa] [Hb Fb] Hi Hj; unfold get, bzip.
  rewrite (nth_zip_with _ _ _ _ [] [] []) by lia.
  pose proof (row_length D a i Fa ltac:(lia)); pose proof (row_length D b i Fb ltac:(lia)).
  apply nth_zip_with; lia.
Qed.

Lemma get_bmap f a B D i j :
  has_shape B D a -> (i < B)%nat -> (j < D)%nat -> get (bmap f a) i j = f (get a i j).
Proof.
  intros [Ha Fa] Hi Hj; unfold get, bmap.
  rewrite (nth_map_lt _ _ _ [] []) by lia.
  pose proof (row_length D a i Fa ltac:(lia)).
  apply nth_map_lt; lia.
Qed.

Lemma bsum_index a B D :
  has_shape B D a -> bsum a = sum_to B (fun i => sum_to D (fun j => get a i j)).
Proof.
  intros [Ha Fa]; unfold bsum; rewrite rsum_nth, length_map, Ha.
  apply sum_to_ext; intros i Hi.
  rewrite (nth_map_lt _ _ _ [] 0) by lia.
  rewrite rsum_nth, (row_length D a i Fa) by lia; reflexivity.
Qed.

Lemma sum_to_ext2 B D f g :
  (forall i j, (i < B)%nat -> (j < D)%nat -> f i j = g i j) ->
  sum_to B (fun i => sum_to D (f i)) = sum_to B (fun i => sum_to D (g i)).
Proof. intros H; apply sum_to_ext; intros i Hi; apply sum_to_ext; intros j Hj; auto. Qed.

(** ** C5: the closed-form KL term of [VAE.latent] *)

(** C5. For [mu] and [sigma] of shape (B, D) and an input of batch size
    [B], the regulariser of [VAE.latent] is
    [-0.5 * sum(1 + sigma - mu^2 - exp(sigma)) / B], whatever the draw
    [eps]; for [mu = sigma = [[0]]] (batch size 1, dim 1) it is [0]. *)
Theorem latent_plain_kl :
  (forall (x mu sigma eps : batch) (B D : nat),
    length x = B -> has_shape B D mu -> has_shape B D sigma ->
    snd (latent_plain x mu sigma eps)
    = -0.5 * sum_to B (fun i => sum_to D (fun j =>
              1 + get sigma i j - get mu i j ^ 2 - exp (get sigma i j))) / INR B)
  /\ (forall (xrow : row) (e : R), snd (latent_plain [xrow] [[0]] [[0]] [[e]]) = 0).
Proof.
  split.
  - intros x mu sigma eps B D Hx Hmu Hs; unfold latent_plain; simpl; rewrite Hx.
    do 2 f_equal.
    rewrite (bsum_index _ B D)
      by (repeat first [apply shape_bzip | apply shape_bmap | assumption]).
    apply sum_to_ext2; intros i j Hi Hj.
    rewrite (get_bzip _ _ _ B D) by (repeat first [apply shape_bzip | apply shape_bmap | assumption]).
    rewrite (get_bzip _ _ _ B D) by (repeat first [apply shape_bmap | assumption]).
    rewrite !(get_bmap _ _ B D) by assumption.
    reflexivity.
  - intros xrow e; unfold latent_plain, bsum, rsum; simpl.
    rewrite exp_0; field.
Qed.

Lemma latent_plain_kl_witness :
  length [[1; 1]] = 1%nat /\ has_shape 1 2 [[0; 1]] /\ has_shape 1 2 [[2; 3]]
  /\ snd (latent_plain [[1; 1]] [[0; 1]] [[2; 3]] [[5; 5]])
     = -0.5 * sum_to 1 (fun i => sum_to 2 (fun j =>
          1 + get [[2; 3]] i j - get [[0; 1]] i j ^ 2 - exp (get [[2; 3]] i j))) / INR 1.
Proof.
  split; [reflexivity|]; split; [repeat constructor|]; split; [repeat constructor|].
  apply (proj1 latent_plain_kl [[1; 1]] [[0; 1]] [[2; 3]] [[5; 5]] 1%nat 2%nat);
    [reflexivity | repeat constructor | repeat constructor].
Defined.

(** ** C4: the flow-augmented latent regulariser *)

Ltac solve_shape := repeat first [apply shape_bzip | apply shape_bmap | assumption].

Lemma batch_ext a b B D :
  has_shape B D a -> has_shape B D b ->
  (forall i j, (i < B)%nat -> (j < D)%nat -> get a i j = get b i j) -> a = b.
Proof.
  intros [Ha Fa] [Hb Fb] H.
  apply (nth_ext _ _ [] []); [congruence|]; intros i Hi.
  apply (nth_ext _ _ 0 0).
  - rewrite (row_length D a i Fa), (row_length D b i Fb) by lia; reflexivity.
  - intros j Hj; rewrite (row_length D a i Fa) in Hj by lia; apply H; lia.
Qed.

Lemma rsum_app l1 l2 : rsum (l1 ++ l2) = rsum l1 + rsum l2.
Proof. induction l1 as [|a l1 IH]; simpl; [ring|]; rewrite IH; ring. Qed.

Lemma rsum_concat (l : list (list R)) :
  rsum (concat l) = sum_to (length l) (fun k => rsum (nth k l [])).
Proof. induction l as [|a l IH]; simpl; [reflexivity|]; now rewrite rsum_app, IH. Qed.

(** The empty flow sequence: [torch.cat([])] raises. *)
Lemma latent_flow_no_flows : latent_flow [] [[0]] [[0]] [[1]] [[0]] = None.
Proof. reflexivity. Qed.

(** C4 (as the code does it). For a non-empty sequence of flows built
    for dimension [D], [mu], [sigma], the draw [eps] of shape (B, D), an
    input of batch size [B] and [z_0 = sigma * eps + mu], the flow-augmented
    [latent] returns [z_k], the flows' output on [z_0], and
    [logs / B] with
    [logs = sum_ij (log_q_z0 - log_p_zk) - (sum of all recorded
    log-determinants)], [log_p_zk = -0.5 * z_k^2] and
    [log_q_z0 = -0.5 * (log(sigma) + (z_0 - mu)^2 / sigma)] per element. *)
Theorem latent_flow_formula fs (x mu sigma eps z_0 : batch) (B D : nat)
  (Hfs : fs <> []) (Hwf : Forall (flow_wf D) fs) (Hx : length x = B)
  (Hmu : has_shape B D mu) (Hs : has_shape B D sigma) (He : has_shape B D eps)
  (Hz0 : has_shape B D z_0)
  (Hdraw : forall i j, (i < B)%nat -> (j < D)%nat ->
           get z_0 i j = get sigma i j * get eps i j + get mu i j) :
  let '(z_k, log_det) := nf_forward fs z_0 in
  latent_flow fs x mu sigma eps
  = Some (z_k,
      (sum_to B (fun i => sum_to D (fun j =>
          -0.5 * (ln (get sigma i j) + (get z_0 i j - get mu i j) ^ 2 / get sigma i j)
          - -0.5 * get z_k i j ^ 2))
       - sum_to (length log_det) (fun k => rsum (nth k log_det [])))
      / INR B).
Proof.
  assert (E0 : bzip Rplus (bzip Rmult sigma eps) mu = z_0).
  { apply (batch_ext _ _ B D); [solve_shape | exact Hz0 |].
    intros i j Hi Hj; rewrite Hdraw by assumption.
    rewrite (get_bzip _ _ _ B D) by solve_shape.
    now rewrite (get_bzip _ _ _ B D) by solve_shape. }
  pose proof (apply_flows_shape D B fs Hwf z_0 Hz0) as Hzk.
  unfold latent_flow; rewrite E0, nf_forward_trace; cbv beta iota zeta.
  set (zk := apply_flows fs z_0) in *.
  assert (Hne : trace fs z_0 <> []) by (destruct fs; [contradiction | discriminate]).
  destruct (trace fs z_0) as [|l ls]; [contradiction|].
  simpl cat; rewrite Hx; do 4 f_equal.
  - rewrite (bsum_index _ B D) by solve_shape.
    apply sum_to_ext; intros i Hi; apply sum_to_ext; intros j Hj.
    repeat first [ rewrite (get_bzip _ _ _ B D) by solve_shape
                 | rewrite (get_bmap _ _ B D) by solve_shape ].
    unfold Rdiv; ring.
  - exact (rsum_concat (l :: ls)).
Qed.

Lemma latent_flow_formula_witness :
  let fs := [Planar {| weight := [1]; scale := [2]; bias := 0 |}] in
  fs <> [] /\ Forall (flow_wf 1) fs /\ has_shape 1 1 [[3]]
  /\ (let '(z_k, log_det) := nf_forward fs [[3 * 1 + 1]] in
      latent_flow fs [[0]] [[1]] [[3]] [[1]]
      = Some (z_k,
          (sum_to 1 (fun i => sum_to 1 (fun j =>
              -0.5 * (ln (get [[3]] i j) + (get [[3 * 1 + 1]] i j - get [[1]] i j) ^ 2
                      / get [[3]] i j)
              - -0.5 * get z_k i j ^ 2))
           - sum_to (length log_det) (fun k => rsum (nth k log_det [])))
          / INR 1)).
Proof.
  cbv zeta.
  split; [discriminate|]; split; [repeat constructor|]; split; [repeat constructor|].
  apply (latent_flow_formula _ [[0]] [[1]] [[3]] [[1]] [[3 * 1 + 1]] 1%nat 1%nat);
    try discriminate; try reflexivity; try (repeat constructor; fail).
  intros i j Hi Hj; destruct i; [|lia]; destruct j; [|lia]; reflexivity.
Defined.

(** ** C9: what [forward] does to the object *)

Module StoreFacts.
Import Store.

Lemma update_nth_length {A} (l : list A) i g : length (update_nth l i g) = length l.
Proof. revert i; induction l as [|a l IH]; intros [|i]; simpl; auto. Qed.

Lemma nth_update_same {A} (l : list A) i g d :
  (i < length l)%nat -> nth i (update_nth l i g) d = g (nth i l d).
Proof. revert i; induction l as [|a l IH]; intros [|i] H; simpl in *; try lia; auto with arith. Qed.

Lemma nth_update_other {A} (l : list A) i j g d :
  j <> i -> nth j (update_nth l i g) d = nth j l d.
Proof.
  revert i j; induction l as [|a l IH]; intros [|i] [|j] H; simpl; auto; try lia.
  all: apply IH; lia.
Qed.

Lemma nth_firstn_lt {A} (l : list A) n j d :
  (j < n)%nat -> nth j (firstn n l) d = nth j l d.
Proof.
  intros H; rewrite nth_firstn.
  now replace (j <? n)%nat with true by (symmetry; apply Nat.ltb_lt; lia).
Qed.

Lemma loop_spec fs :
  forall z st, (log_det st < length (heap st))%nat ->
  let '(z', st') := loop fs z st in
  z' = apply_flows fs z
  /\ log_det st' = log_det st
  /\ length (heap st') = length (heap st)
  /\ nth (log_det st) (heap st') [] = nth (log_det st) (heap st) [] ++ trace fs z
  /\ forall j, j <> log_det st -> nth j (heap st') [] = nth j (heap st) [].
Proof.
  induction fs as [|f fs IH]; intros z st Hl; simpl.
  - rewrite app_nil_r; auto.
  - set (st1 := {| log_det := log_det st;
                   heap := update_nth (heap st) (log_det st)
                             (fun l => l ++ [log_abs_det_jacobian f z]) |}).
    assert (Hl1 : (log_det st1 < length (heap st1))%nat)
      by (simpl; now rewrite update_nth_length).
    specialize (IH (flow_call f z) st1 Hl1).
    destruct (loop fs (flow_call f z) st1) as [z' st'].
    destruct IH as (Hz & Hd & Hlen & Hnth & Hoth); simpl in *.
    repeat split; auto.
    + now rewrite Hlen, update_nth_length.
    + rewrite Hnth, nth_update_same by exact Hl; now rewrite <- app_assoc.
    + intros j Hj; rewrite Hoth by exact Hj; now apply nth_update_other.
Qed.

Lemma forward_spec fs z st :
  let '((z', l), st') := forward fs z st in
  l = length (heap st)
  /\ log_det st' = l
  /\ length (heap st') = S (length (heap st))
  /\ nth l (heap st') [] = snd (nf_forward fs z)
  /\ z' = fst (nf_forward fs z)
  /\ firstn (length (heap st)) (heap st') = heap st.
Proof.
  unfold forward.
  set (st1 := {| log_det := length (heap st); heap := heap st ++ [[]] |}).
  assert (Hl1 : (log_det st1 < length (heap st1))%nat)
    by (simpl; rewrite length_app; simpl; lia).
  pose proof (loop_spec fs z st1 Hl1) as H.
  destruct (loop fs z st1) as [z' st'].
  destruct H as (Hz & Hd & Hlen & Hnth & Hoth); simpl in *.
  rewrite nf_forward_trace; simpl.
  rewrite length_app in Hlen; simpl in Hlen.
  repeat split; auto; try lia.
  - rewrite Hd, Hnth, app_nth2 by lia; rewrite Nat.sub_diag; reflexivity.
  - apply (nth_ext _ _ [] []).
    + rewrite length_firstn; lia.
    + intros j Hj; rewrite length_firstn in Hj.
      rewrite nth_firstn_lt by lia.
      rewrite Hoth by lia; apply app_nth1; lia.
Qed.

End StoreFacts.

(** The attribute [self.log_det] is rebound by a call. *)
Lemma forward_rebinds_log_det :
  Store.log_det (snd (Store.forward [Planar planar_ex] [[0; 0]] (Store.init_state [])))
  <> Store.log_det (Store.init_state []).
Proof.
  pose proof (StoreFacts.forward_spec [Planar planar_ex] [[0; 0]] (Store.init_state [])) as H.
  destruct (Store.forward [Planar planar_ex] [[0; 0]] (Store.init_state [])) as [[z' l] st'].
  destruct H as (Hl & Hd & _); simpl in *; congruence.
Qed.

(** C9 (as the code does it). Each call of [forward] creates a new list,
    rebinds [self.log_det] to it, records in it exactly this call's
    log-determinants and returns that list; every list that existed
    before the call, in particular the one an earlier call returned, is
    left as it was, so nothing accumulates across calls. *)
Theorem forward_fresh_log_det fs z st :
  let '((z', l), st') := Store.forward fs z st in
  l = length (Store.heap st)
  /\ Store.log_det st' = l
  /\ nth l (Store.heap st') [] = snd (nf_forward fs z)
  /\ length (nth l (Store.heap st') []) = length fs
  /\ z' = fst (nf_forward fs z)
  /\ firstn (length (Store.heap st)) (Store.heap st') = Store.heap st
  /\ forall fs2 z2,
       let '(_, st'') := Store.forward fs2 z2 st' in
       nth l (Store.heap st'') [] = snd (nf_forward fs z).
Proof.
  pose proof (StoreFacts.forward_spec fs z st) as H.
  destruct (Store.forward fs z st) as [[z' l] st'].
  destruct H as (Hl & Hd & Hlen & Hnth & Hz & Hpre).
  repeat split; auto.
  - rewrite Hnth, nf_forward_trace; apply trace_length.
  - intros fs2 z2.
    pose proof (StoreFacts.forward_spec fs2 z2 st') as H2.
    destruct (Store.forward fs2 z2 st') as [[z'' l2] st''].
    destruct H2 as (_ & _ & _ & _ & _ & Hpre2).
    rewrite <- Hnth, <- Hpre2, StoreFacts.nth_firstn_lt by lia; reflexivity.
Qed.

(** ** C10: construction with a non-positive dimension *)

(** A planar and a radial flow built with [dim = 0]. *)
Lemma flows_dim_zero_built :
  planar_init (fun _ => 0) 0%Z 0 = Some ({| weight := []; scale := []; bias := 0 |}, 1%nat)
  /\ radial_init (fun _ => 0) 0%Z 0
     = Some ({| z0 := []; alpha := 0; beta := 0; rdim := 0 |}, 2%nat).
Proof. split; reflexivity. Qed.

(** C10 (as the code does it). Neither constructor checks [dim]: only a
    negative [dim] fails, when [torch.Tensor(1, dim)] raises; with
    [dim = 0] both flows are built, with empty parameter vectors, and
    their forward transforms map any batch of empty rows to itself. *)
Theorem flow_init_dim_check :
  (forall rnd dim n, planar_init rnd dim n = None <-> (dim < 0)%Z)
  /\ (forall rnd dim n, radial_init rnd dim n = None <-> (dim < 0)%Z)
  /\ (forall rnd n, exists p n', planar_init rnd 0%Z n = Some (p, n')
        /\ forall B z, has_shape B 0 z -> planar_call p z = z)
  /\ (forall rnd n, exists q n', radial_init rnd 0%Z n = Some (q, n')
        /\ forall B z, has_shape B 0 z -> radial_call q z = z).
Proof.
  split; [|split; [|split]].
  - intros rnd dim n; unfold planar_init.
    destruct (Z.ltb_spec dim 0); split; intros H'; try discriminate; auto; lia.
  - intros rnd dim n; unfold radial_init.
    destruct (Z.ltb_spec dim 0); split; intros H'; try discriminate; auto; lia.
  - intros rnd n; eexists _, _; split; [reflexivity|].
    intros B z [_ Hz]; unfold planar_call, linear; simpl.
    induction Hz as [|x z Hx Hz IH]; simpl; [reflexivity|].
    rewrite IH; f_equal; destruct x; [reflexivity | discriminate].
  - intros rnd n; eexists _, _; split; [reflexivity|].
    intros B z [_ Hz]; unfold radial_call; simpl.
    induction Hz as [|x z Hx Hz IH]; simpl; [reflexivity|].
    rewrite IH; f_equal; destruct x; [reflexivity | discriminate].
Qed.

(** * Further properties of the flow code *)

Lemma apply_flows_app fs1 fs2 z :
  apply_flows (fs1 ++ fs2) z = apply_flows fs2 (apply_flows fs1 z).
Proof. revert z; induction fs1; simpl; auto. Qed.

Lemma trace_app fs1 fs2 z :
  trace (fs1 ++ fs2) z = trace fs1 z ++ trace fs2 (apply_flows fs1 z).
Proof. revert z; induction fs1; intros z; simpl; f_equal; auto. Qed.

(** [NormalizingFlow.forward] over a concatenation of flow lists is
    [forward] over the first list followed by [forward] over the second,
    the recorded log-determinants concatenated. *)
Theorem nf_forward_app fs1 fs2 z :
  nf_forward (fs1 ++ fs2) z =
  let '(z1, l1) := nf_forward fs1 z in
  let '(z2, l2) := nf_forward fs2 z1 in
  (z2, l1 ++ l2).
Proof. rewrite !nf_forward_trace, apply_flows_app, trace_app; reflexivity. Qed.

Lemma ln_le_mono x y : 0 < x -> x <= y -> ln x <= ln y.
Proof.
  intros Hx [H | <-]; [left; now apply ln_increasing | right; reflexivity].
Qed.

Lemma ln_guard_ge d : ln 1e-9 <= ln (Rabs d + log_eps).
Proof.
  unfold log_eps; apply ln_le_mono; [lra|].
  pose proof (Rabs_pos d); lra.
Qed.

(** Every log-determinant a planar flow returns, and every one a radial
    flow with [alpha > 0] returns (so that [h = 1 / (alpha + r)] is finite),
    is at least [log(1e-9)]: the additive guard keeps it finite for any
    parameters and any input. *)
Theorem ladj_lower_bound :
  (forall p z, Forall (fun v => ln 1e-9 <= v) (log_abs_det_jacobian (Planar p) z))
  /\ (forall q z, 0 < alpha q -> Forall (fun v => ln 1e-9 <= v) (log_abs_det_jacobian (Radial q) z)).
Proof.
  split; simpl.
  - intros p z; unfold planar_ladj; apply Forall_forall; intros v Hv.
    apply in_map_iff in Hv as (f & <- & _); apply ln_guard_ge.
  - intros q z _; unfold radial_ladj; apply Forall_forall; intros v Hv.
    apply in_map_iff in Hv as (x & <- & _); apply ln_guard_ge.
Qed.

Lemma vadd_zero_scaled x l c :
  length x = length l -> vadd x (map (fun d => 0 * c * d) (vsub x l)) = x.
Proof.
  revert l; unfold vadd, vsub.
  induction x as [|a x IHx]; intros [|b l] Hl; simpl in *; try discriminate; auto.
  injection Hl as Hl; rewrite (IHx l Hl); f_equal; ring.
Qed.

(** A radial flow with [beta = 0] and [alpha > 0] (so that [h] is
    finite) leaves a batch of rows of the centre's length unchanged, yet
    reports the log-determinant [log(1e-9)] (a negative number) for every
    sample, not [0]: the factor [(1 + bh)^dim - 1] vanishes at [bh = 0]. *)
Theorem radial_beta_zero q z
  (Hb : beta q = 0) (Ha : 0 < alpha q)
  (Hz : Forall (fun x => length x = length (z0 q)) z) :
  radial_call q z = z
  /\ radial_ladj q z = repeat (ln 1e-9) (length z)
  /\ ln 1e-9 < 0.
Proof.
  split; [|split].
  - unfold radial_call; induction Hz as [|x z Hx Hz IH]; simpl; [reflexivity|].
    rewrite IH, Hb, vadd_zero_scaled by exact Hx; reflexivity.
  - unfold radial_ladj; clear Hz; induction z as [|x z IH]; cbn [map length repeat];
      [reflexivity|].
    rewrite IH; f_equal; rewrite Hb.
    unfold log_eps; f_equal.
    replace (((1 + 0 * _) ^ rdim q - 1) * _) with 0
      by (replace (1 + 0 * _) with 1 by ring; rewrite pow1; ring).
    rewrite Rabs_R0; ring.
  - rewrite <- ln_1; apply ln_increasing; lra.
Qed.

Lemma radial_beta_zero_witness :
  0 = 0 /\ 0 < 1 /\ Forall (fun x : row => length x = 2%nat) [[3; 4]]
  /\ radial_call {| z0 := [1; 2]; alpha := 1; beta := 0; rdim := 2 |} [[3; 4]] = [[3; 4]].
Proof.
  split; [reflexivity|]; split; [lra|]; split; [repeat constructor|].
  apply (radial_beta_zero {| z0 := [1; 2]; alpha := 1; beta := 0; rdim := 2 |} [[3; 4]]);
    simpl; [reflexivity | lra | repeat constructor].
Defined.

(** A planar flow whose scale vector [u] is zero leaves a batch of rows
    of its length unchanged and reports [log(1 + 1e-9)] per sample. *)
Theorem planar_zero_scale p z
  (Hu : Forall (fun u => u = 0) (scale p))
  (Hz : Forall (fun x => length x = length (scale p)) z) :
  planar_call p z = z
  /\ planar_ladj p z = repeat (ln (1 + 1e-9)) (length z).
Proof.
  assert (Hrow : forall x t, length x = length (scale p) ->
            vadd x (map (fun u => u * t) (scale p)) = x).
  { clear Hz; intros x t; revert x; induction Hu as [|u us Hu0 Hus IH]; intros [|a x] Hl;
      simpl in *; try discriminate; auto.
    injection Hl as Hl; unfold vadd in *; simpl; rewrite (IH x Hl); f_equal; subst; ring. }
  assert (Hdot : forall psi, dot psi (scale p) = 0).
  { clear Hz Hrow; intros psi; unfold dot; revert psi; induction Hu as [|u us Hu0 Hus IH]; intros [|a psi];
      simpl; try reflexivity.
    rewrite (IH psi); subst; ring. }
  split.
  - unfold planar_call, linear; induction Hz as [|x z Hx Hz IH]; simpl; [reflexivity|].
    rewrite IH, Hrow by exact Hx; reflexivity.
  - unfold planar_ladj, linear; clear Hz; induction z as [|x z IH]; cbn [map length repeat];
      [reflexivity|].
    rewrite IH, Hdot, Rplus_0_r, Rabs_R1; reflexivity.
Qed.

Lemma planar_zero_scale_witness :
  Forall (fun u => u = 0) [0; 0] /\ Forall (fun x : row => length x = 2%nat) [[3; 4]]
  /\ planar_call {| weight := [1; 2]; scale := [0; 0]; bias := 5 |} [[3; 4]] = [[3; 4]].
Proof.
  split; [repeat constructor|]; split; [repeat constructor|].
  apply (planar_zero_scale {| weight := [1; 2]; scale := [0; 0]; bias := 5 |} [[3; 4]]);
    simpl; repeat constructor.
Defined.

(** The scalar parameters of a flow, in the order [self.parameters()]
    yields them to [init_parameters]. *)
Definition flow_params (f : Flow) : row :=
  match f with
  | Planar p => weight p ++ scale p ++ [bias p]
  | Radial q => z0 q ++ [alpha q; beta q]
  end.

(** The number of scalars one block class allocates for [dim]. *)
Definition block_size (dim : nat) (b : Block) : nat :=
  match b with
  | PlanarBlock => (2 * dim + 1)%nat
  | RadialBlock => (dim + 2)%nat
  end.

Definition blocks_size (dim : nat) (bs : list Block) : nat :=
  fold_right (fun b s => (block_size dim b + s)%nat) 0%nat bs.

Lemma draws_app rnd n a b :
  draws rnd n (a + b) = draws rnd n a ++ draws rnd (n + a) b.
Proof. unfold draws; rewrite seq_app, map_app; reflexivity. Qed.

Lemma draws_one rnd n : draws rnd n 1 = [rnd n].
Proof. reflexivity. Qed.

Lemma block_init_params rnd b (dim n : nat) :
  exists f, block_init rnd b (Z.of_nat dim) n = Some (f, (n + block_size dim b)%nat)
    /\ flow_params f = draws rnd n (block_size dim b).
Proof.
  destruct b; simpl; unfold planar_init, radial_init;
    rewrite of_nat_ltb_false, Nat2Z.id; eexists; split.
  - f_equal; f_equal; lia.
  - simpl. replace (dim + (dim + 0) + 1)%nat with (dim + dim + 1)%nat by lia.
    rewrite !draws_app, draws_one, <- app_assoc, Nat.add_assoc; reflexivity.
  - f_equal; f_equal; lia.
  - simpl. rewrite draws_app; reflexivity.
Qed.

Lemma init_blocks_params rnd (dim : nat) bs :
  forall acc n, exists fs,
    init_blocks rnd (Z.of_nat dim) bs acc n = Some (acc ++ fs, (n + blocks_size dim bs)%nat)
    /\ concat (map flow_params fs) = draws rnd n (blocks_size dim bs).
Proof.
  induction bs as [|b bs IH]; intros acc n; simpl.
  - exists []; rewrite app_nil_r, Nat.add_0_r; auto.
  - destruct (block_init_params rnd b dim n) as (f & -> & Hf).
    destruct (IH (acc ++ [f]) (n + block_size dim b)%nat) as (fs & -> & Hfs).
    exists (f :: fs); rewrite <- app_assoc; simpl; split.
    + f_equal; f_equal; lia.
    + rewrite Hf, Hfs, draws_app; reflexivity.
Qed.

Lemma init_reps_params rnd (dim : nat) bs k :
  forall acc n, exists fs,
    init_reps rnd (Z.of_nat dim) bs k acc n
      = Some (acc ++ fs, (n + k * blocks_size dim bs)%nat)
    /\ concat (map flow_params fs) = draws rnd n (k * blocks_size dim bs).
Proof.
  induction k as [|k IH]; intros acc n; simpl.
  - exists []; rewrite app_nil_r, Nat.add_0_r; auto.
  - destruct (init_blocks_params rnd dim bs acc n) as (fs1 & -> & H1).
    destruct (IH (acc ++ fs1) (n + blocks_size dim bs)%nat) as (fs2 & -> & H2).
    exists (fs1 ++ fs2); rewrite <- app_assoc; split.
    + f_equal; f_equal; lia.
    + rewrite map_app, concat_app, H1, H2, draws_app; reflexivity.
Qed.

(** The bijector loop of [NormalizingFlow.__init__] with [dim >= 0] never
    fails; the flows it builds hold [flow_length * sum(size of each block)] scalar
    parameters (planar: [2*dim+1], radial: [dim+2]), each taken from its own
    fresh draw of the generator, in construction order. *)
Theorem nf_init_params rnd (dim fl : nat) bs n :
  exists fs,
    nf_init rnd (Z.of_nat dim) bs (Z.of_nat fl) n
      = Some (fs, (n + fl * blocks_size dim bs)%nat)
    /\ concat (map flow_params fs) = draws rnd n (fl * blocks_size dim bs).
Proof.
  unfold nf_init; rewrite Nat2Z.id.
  exact (init_reps_params rnd dim bs fl [] n).
Qed.

Lemma block_init_neg rnd b dim n : (dim < 0)%Z -> block_init rnd b dim n = None.
Proof.
  intros H; destruct b; simpl; unfold planar_init, radial_init;
    replace (dim <? 0)%Z with true by (symmetry; now apply Z.ltb_lt); reflexivity.
Qed.

Lemma block_init_nonneg rnd b dim n :
  (0 <= dim)%Z -> exists f n', block_init rnd b dim n = Some (f, n').
Proof.
  intros H; destruct b; simpl; unfold planar_init, radial_init;
    replace (dim <? 0)%Z with false by (symmetry; apply Z.ltb_ge; lia); eauto.
Qed.

Lemma init_blocks_nonneg rnd dim bs :
  (0 <= dim)%Z -> forall acc n, exists fs n', init_blocks rnd dim bs acc n = Some (fs, n').
Proof.
  intros Hd; induction bs as [|b bs IH]; intros acc n; simpl; eauto.
  destruct (block_init_nonneg rnd b dim n Hd) as (f & n1 & ->); apply IH.
Qed.

Lemma init_reps_nonneg rnd dim bs k :
  (0 <= dim)%Z -> forall acc n, exists fs n', init_reps rnd dim bs k acc n = Some (fs, n').
Proof.
  intros Hd; induction k as [|k IH]; intros acc n; simpl; eauto.
  destruct (init_blocks_nonneg rnd dim bs Hd acc n) as (fs & n1 & ->); apply IH.
Qed.

(** The bijector loop of [NormalizingFlow.__init__] fails exactly when the
    outer loop runs at least once ([flow_length > 0]), [blocks] is
    non-empty, and [dim] is negative. *)
Lemma init_loop_fails_iff rnd dim bs fl n :
  nf_init rnd dim bs fl n = None <-> (dim < 0 /\ 0 < fl)%Z /\ bs <> [].
Proof.
  unfold nf_init; split.
  - intros H.
    destruct (Z_lt_le_dec dim 0) as [Hd | Hd];
      [| destruct (init_reps_nonneg rnd dim bs (Z.to_nat fl) Hd [] n) as (? & ? & E);
         congruence].
    destruct (Z_lt_le_dec 0 fl) as [Hf | Hf];
      [| replace (Z.to_nat fl) with 0%nat in H by lia; discriminate].
    destruct bs as [|b bs].
    + exfalso; revert H; generalize (@nil Flow) n;
        induction (Z.to_nat fl) as [|k IH]; intros acc m; simpl; [discriminate | apply IH].
    + split; [lia | discriminate].
  - intros ((Hd & Hf) & Hb); destruct bs as [|b bs]; [congruence|].
    destruct (Z.to_nat fl) eqn:E; [lia|]; simpl.
    rewrite block_init_neg by exact Hd; reflexivity.
Qed.

Lemma init_reps_no_blocks rnd dim k : forall acc n,
  init_reps rnd dim [] k acc n = Some (acc, n).
Proof. induction k as [|k IH]; intros acc n; simpl; auto. Qed.

(** The loop builds at least one flow when it succeeds with
    [flow_length > 0] and a non-empty [blocks]. *)
Lemma nf_init_nonempty rnd dim bs fl n fs n' :
  (0 < fl)%Z -> bs <> [] -> nf_init rnd dim bs fl n = Some (fs, n') -> fs <> [].
Proof.
  intros Hf Hb H.
  destruct (Z_lt_le_dec dim 0) as [Hd | Hd].
  - assert (Hn : nf_init rnd dim bs fl n = None)
      by (apply init_loop_fails_iff; split; [lia | exact Hb]).
    congruence.
  - destruct (nf_init_ok rnd (Z.to_nat dim) (Z.to_nat fl) bs n) as (fs' & n'' & E & Hm & _).
    rewrite !Z2Nat.id in E by lia.
    rewrite H in E; injection E as <- <-.
    intros ->; simpl in Hm.
    destruct (Z.to_nat fl) as [|k] eqn:Ek; [lia|].
    destruct bs as [|b bs]; [congruence | discriminate].
Qed.

(** [NormalizingFlow.__init__] as a whole (torch >= 1.8) returns only when
    it builds no flow ([flow_length <= 0] or [blocks] empty) and [density]
    is a torch distribution: as soon as one flow is built, line
    [self.final_density = distrib.TransformedDistribution(...)] raises
    (the flows have no [domain]), and so it does for a [density] that is
    not a distribution. A negative [dim] goes unnoticed when no flow gets
    built. *)
Theorem nf_construct_fails_iff rnd dim bs fl density n :
  nf_construct rnd dim bs fl density n = None
  <-> ((0 < fl)%Z /\ bs <> []) \/ density = NotDistribution.
Proof.
  unfold nf_construct.
  destruct (Z_lt_le_dec 0 fl) as [Hf | Hf]; [destruct bs as [|b bs]|].
  - unfold nf_init; rewrite init_reps_no_blocks.
    destruct density; simpl; split; intros H; auto; try discriminate.
    destruct H as [[_ H] | H]; [congruence | discriminate].
  - split; intros _; [left; split; [exact Hf | discriminate]|].
    destruct (nf_init rnd dim (b :: bs) fl n) as [[fs n'] |] eqn:E; [|reflexivity].
    assert (Hne : fs <> []) by (refine (nf_init_nonempty rnd dim (b :: bs) fl n fs n' Hf _ E); discriminate).
    destruct density, fs as [|f fs]; [congruence | reflexivity | reflexivity | reflexivity].
  - unfold nf_init; replace (Z.to_nat fl) with 0%nat by lia; simpl.
    destruct density; simpl; split; intros H; auto; try discriminate.
    destruct H as [[H _] | H]; [lia | discriminate].
Qed.

(** ** Further properties of the VAE latent step *)

Lemma rsum_cons a l : rsum (a :: l) = a + rsum l.
Proof. reflexivity. Qed.

Lemma rsum_nonpos l : Forall (fun v => v <= 0) l -> rsum l <= 0.
Proof. induction 1; simpl; lra. Qed.

Lemma kl_row_nonpos s : forall m,
  Forall (fun v => v <= 0)
    (zip_with Rminus (zip_with Rminus (map (fun s => 1 + s) s) (map (fun m => m ^ 2) m))
       (map exp s)).
Proof.
  induction s as [|a s IH]; intros [|b m]; cbn [map zip_with]; constructor; auto.
  pose proof (exp_ineq1_le a); pose proof (pow2_ge_0 b); lra.
Qed.

Lemma kl_row_zero s : forall m,
  Forall (fun v => v = 0) s -> Forall (fun v => v = 0) m ->
  rsum (zip_with Rminus (zip_with Rminus (map (fun s => 1 + s) s) (map (fun m => m ^ 2) m))
          (map exp s)) = 0.
Proof.
  induction s as [|a s IH]; intros [|b m] Hs Hm; simpl; try reflexivity.
  inversion Hs; inversion Hm; subst; rewrite IH, exp_0 by assumption; ring.
Qed.

(** The KL term [VAE.latent] returns is never negative, whatever [mu]
    and [sigma] hold (each summand [1 + s - m^2 - exp s] is at most 0), and
    it is exactly 0 when [mu] and [sigma] are all zeros. *)
Theorem latent_plain_kl_nonneg x mu sigma eps (Hx : (0 < length x)%nat) :
  0 <= snd (latent_plain x mu sigma eps)
  /\ (Forall (Forall (fun v => v = 0)) mu -> Forall (Forall (fun v => v = 0)) sigma ->
      snd (latent_plain x mu sigma eps) = 0).
Proof.
  unfold latent_plain, bsum, bzip, bmap; cbn [snd].
  assert (Hn : 0 < INR (length x)) by (apply lt_0_INR; exact Hx).
  split.
  - match goal with |- 0 <= -0.5 * ?S / _ => assert (Hs : S <= 0) end.
    { apply rsum_nonpos; clear -sigma; revert mu.
      induction sigma as [|s sg IH]; intros [|m mu]; simpl; constructor; auto.
      apply rsum_nonpos, kl_row_nonpos. }
    unfold Rdiv; apply Rmult_le_pos; [lra | left; now apply Rinv_0_lt_compat].
  - intros Hm Hs.
    match goal with |- -0.5 * ?S / _ = 0 => replace S with 0; [unfold Rdiv; ring|] end.
    clear -Hm Hs; revert mu Hm.
    induction Hs as [|s sg Hs0 Hsg IH]; intros [|m mu] Hm; cbn [map zip_with];
      try reflexivity.
    inversion Hm; subst.
    unfold rsum at 1; cbn [fold_right]; fold (rsum (map rsum (zip_with (zip_with Rminus)
      (zip_with (zip_with Rminus) (map (map (fun s => 1 + s)) sg)
         (map (map (fun m => m ^ 2)) mu)) (map (map exp) sg)))).
    rewrite (IH mu), kl_row_zero by assumption; ring.
Qed.

Lemma latent_plain_kl_nonneg_witness :
  (0 < length [[1; 2]])%nat /\ 0 <= snd (latent_plain [[1; 2]] [[3]] [[1]] [[0]]).
Proof.
  split; [simpl; lia|].
  apply (latent_plain_kl_nonneg [[1; 2]] [[3]] [[1]] [[0]]); simpl; lia.
Defined.

(** ** The reconstruction loss *)

(** The logarithm of [F.binary_cross_entropy]'s kernel, clamped below
    at [-100] ([log 0 = -inf] is clamped to [-100]); it is only applied to
    values in [[0, 1]], which the kernel checks first. *)
Definition clog (v : R) : R := if Rle_dec v 0 then -100 else Rmax (ln v) (-100).

(** One element of [F.binary_cross_entropy(input, target, reduction='none')]:
    [(t - 1) * max(log1p(-p), -100) - t * max(log p, -100)]. *)
Definition bce_elem (p t : R) : R := (t - 1) * clog (1 - p) - t * clog p.

Definition in01b (p : R) : bool :=
  if Rle_dec 0 p then if Rle_dec p 1 then true else false else false.

(** [F.binary_cross_entropy(input, target, reduction='none')]: raises when
    the two sizes differ or when an input value lies outside [[0, 1]]. *)
Definition binary_cross_entropy (inp tgt : batch) : option batch :=
  if list_eq_dec Nat.eq_dec (map (@length R) inp) (map (@length R) tgt) then
    if forallb (forallb in01b) inp then Some (bzip bce_elem inp tgt) else None
  else None.

(** [tensor.sum(dim = 0)] of a (B, D) batch, [D] read off its first row. *)
Definition sum_dim0 (l : batch) : row :=
  fold_right vadd (repeat 0 (length (hd [] l))) l.

(** [binary_loss(x_tilde, x)]. *)
Definition binary_loss (x_tilde x : batch) : option row :=
  match binary_cross_entropy x_tilde x with
  | Some l => Some (sum_dim0 l)
  | None => None
  end.

(** [reconstruction_loss(x_tilde, x, num_classes=1, average)] on a (B, D)
    batch [x] (every caller in the notebook uses one class): [x.view(x.size(0), -1)]
    keeps a 2-D [x] as it is; it raises only when [x.size(0) = 0], where the
    [-1] cannot be inferred (a (B, 0) batch with [B > 0] is viewed as is).
    The result is the per-pixel vector ([inl]) or, averaged, a scalar
    ([inr]). *)
Definition reconstruction_loss (x_tilde x : batch) (average : bool) : option (row + R) :=
  if (length x =? 0)%nat then None
  else
    match binary_loss x_tilde x with
    | None => None
    | Some loss => if average then Some (inr (rsum loss / INR (length x))) else Some (inl loss)
    end.

Lemma clog_bounds v : 0 <= v <= 1 -> -100 <= clog v <= 0.
Proof.
  intros Hv; unfold clog; destruct (Rle_dec v 0); [lra|].
  split; [apply Rmax_r|].
  apply Rmax_lub; [|lra].
  rewrite <- ln_1; apply ln_le_mono; lra.
Qed.

Lemma bce_elem_bounds p t : 0 <= p <= 1 -> 0 <= t <= 1 -> 0 <= bce_elem p t <= 100.
Proof.
  intros Hp Ht; unfold bce_elem.
  pose proof (clog_bounds p Hp); pose proof (clog_bounds (1 - p) ltac:(lra)).
  split; nra.
Qed.

Lemma clog_1 : clog 1 = 0.
Proof.
  unfold clog; destruct (Rle_dec 1 0); [lra|]; rewrite ln_1; apply Rmax_left; lra.
Qed.

Lemma bce_elem_binary t : t = 0 \/ t = 1 -> bce_elem t t = 0.
Proof.
  unfold bce_elem; intros [-> | ->].
  - replace (1 - 0) with 1 by ring; rewrite clog_1; ring.
  - replace (1 - 1) with 0 by ring; rewrite clog_1; ring.
Qed.

Lemma in01b_true p : in01b p = true -> 0 <= p <= 1.
Proof. unfold in01b; destruct (Rle_dec 0 p), (Rle_dec p 1); easy. Qed.

Lemma rsum_vadd a : forall b, length a = length b -> rsum (vadd a b) = rsum a + rsum b.
Proof.
  unfold vadd; induction a as [|x a IH]; intros [|y b] H; simpl in *; try discriminate; [ring|].
  injection H as H; rewrite IH by exact H; ring.
Qed.

Lemma rsum_repeat0 n : rsum (repeat 0 n) = 0.
Proof. induction n; simpl; [|rewrite IHn]; ring. Qed.

Lemma vadd_length a b : length a = length b -> length (vadd a b) = length a.
Proof. intros H; unfold vadd; rewrite zip_with_length, H; apply Nat.min_id. Qed.

Lemma sum_dim0_fold D l :
  Forall (fun r => length r = D) l ->
  length (fold_right vadd (repeat 0 D) l) = D
  /\ rsum (fold_right vadd (repeat 0 D) l) = bsum l.
Proof.
  unfold bsum; induction 1 as [|r l Hr Hl IH]; cbn [fold_right map].
  - rewrite repeat_length, rsum_repeat0; auto.
  - destruct IH as [IH1 IH2].
    rewrite vadd_length, rsum_vadd by congruence; rewrite IH2; split; [exact Hr | reflexivity].
Qed.

Lemma sum_dim0_rsum D l :
  Forall (fun r => length r = D) l -> l <> [] -> rsum (sum_dim0 l) = bsum l.
Proof.
  intros H Hne; unfold sum_dim0.
  destruct l as [|r l']; [congruence|].
  inversion H as [|? ? Hr _]; subst; simpl hd.
  exact (proj2 (sum_dim0_fold (length r) (r :: l') H)).
Qed.

Lemma bce_rows xt x :
  map (@length R) xt = map (@length R) x ->
  Forall (Forall (fun p => 0 <= p <= 1)) xt -> Forall (Forall (fun t => 0 <= t <= 1)) x ->
  map (@length R) (bzip bce_elem xt x) = map (@length R) x
  /\ Forall (fun r => 0 <= rsum r <= 100 * INR (length r)) (bzip bce_elem xt x).
Proof.
  unfold bzip; revert x; induction xt as [|a xt IH]; intros [|b x] Hl Ha Hb;
    simpl in *; try discriminate; [split; constructor|].
  injection Hl as Hl1 Hl2; inversion Ha as [|? ? Ha0 Ha1]; inversion Hb as [|? ? Hb0 Hb1]; subst.
  destruct (IH x Hl2 Ha1 Hb1) as [IH1 IH2].
  rewrite zip_with_length, Hl1, Nat.min_id, IH1; split; [reflexivity|]; constructor; [|exact IH2].
  clear -Hl1 Ha0 Hb0; revert b Hl1 Hb0; induction Ha0 as [|p a Hp Ha IHa]; intros [|t b] Hl Ht;
    cbn [zip_with length] in *; try discriminate; [simpl; lra|].
  injection Hl as Hl; inversion Ht as [|? ? Ht0 Ht1]; subst.
  destruct (IHa b Hl Ht1) as [I1 I2].
  rewrite rsum_cons, S_INR; pose proof (bce_elem_bounds p t Hp Ht0); lra.
Qed.

Lemma bsum_bounds D l :
  Forall (fun r => length r = D) l ->
  Forall (fun r => 0 <= rsum r <= 100 * INR (length r)) l ->
  0 <= bsum l <= 100 * INR D * INR (length l).
Proof.
  unfold bsum; induction 1 as [|r l Hr Hl IH]; intros Hb; cbn [map length]; [simpl; lra|].
  inversion Hb; subst; specialize (IH ltac:(assumption)); rewrite rsum_cons, S_INR.
  pose proof (pos_INR (length r)); nra.
Qed.

(** For targets in [[0, 1]], the averaged binary reconstruction loss is
    between [0] and [100 * D] for a batch of [D]-pixel rows: every pixel
    contributes between [0] and [100], thanks to the [-100] clamp on the
    logarithms. *)
Theorem reconstruction_loss_bounds x_tilde x D v
  (Hx : Forall (fun r => length r = D) x)
  (Ht : Forall (Forall (fun t => 0 <= t <= 1)) x)
  (Hv : reconstruction_loss x_tilde x true = Some (inr v)) :
  0 <= v <= 100 * INR D.
Proof.
  unfold reconstruction_loss, binary_loss, binary_cross_entropy in Hv.
  destruct (length x =? 0)%nat eqn:E; [discriminate|].
  destruct (list_eq_dec _ _ _) as [Hl|]; [|discriminate].
  destruct (forallb (forallb in01b) x_tilde) eqn:Hin; [|discriminate].
  injection Hv as <-.
  assert (Hp : Forall (Forall (fun p => 0 <= p <= 1)) x_tilde).
  { apply Forall_forall; intros r Hr; apply Forall_forall; intros p Hp.
    rewrite forallb_forall in Hin; specialize (Hin r Hr).
    rewrite forallb_forall in Hin; now apply in01b_true, Hin. }
  destruct (bce_rows x_tilde x Hl Hp Ht) as [Hl' Hb].
  assert (HD : Forall (fun r => length r = D) (bzip bce_elem x_tilde x)).
  { apply Forall_forall; intros r Hr.
    assert (Hin' : In (length r) (map (@length R) x)) by (rewrite <- Hl'; now apply in_map).
    apply in_map_iff in Hin' as (r' & <- & Hr'); now apply (proj1 (Forall_forall _ _) Hx). }
  assert (Hne : x <> []) by (intros ->; discriminate).
  assert (Hlen : length (bzip bce_elem x_tilde x) = length x)
    by (rewrite <- (length_map (@length R) (bzip _ _ _)), Hl', length_map; reflexivity).
  assert (Hne' : bzip bce_elem x_tilde x <> []).
  { intros H0; rewrite H0 in Hlen; destruct x; [congruence | discriminate]. }
  rewrite (sum_dim0_rsum D _ HD Hne').
  destruct (bsum_bounds D _ HD Hb) as [B1 B2]; rewrite Hlen in B2.
  assert (Hn : 0 < INR (length x)) by (apply lt_0_INR; destruct x; [congruence | simpl; lia]).
  split.
  - unfold Rdiv; apply Rmult_le_pos; [lra | left; now apply Rinv_0_lt_compat].
  - apply Rmult_le_reg_r with (INR (length x)); [exact Hn|].
    unfold Rdiv; rewrite Rmult_assoc, Rinv_l by lra; lra.
Qed.

Lemma reconstruction_loss_bounds_witness :
  Forall (fun r : row => length r = 2%nat) [[1; 0]]
  /\ Forall (Forall (fun t => 0 <= t <= 1)) [[1; 0]]
  /\ reconstruction_loss [[1; 0]] [[1; 0]] true = Some (inr (rsum [0; 0] / 1))
  /\ 0 <= rsum [0; 0] / 1 <= 100 * INR 2.
Proof.
  assert (H1 : Forall (fun r : row => length r = 2%nat) [[1; 0]]) by repeat constructor.
  assert (H2 : Forall (Forall (fun t => 0 <= t <= 1)) [[1; 0]]) by (repeat constructor; lra).
  assert (H3 : reconstruction_loss [[1; 0]] [[1; 0]] true = Some (inr (rsum [0; 0] / 1))).
  { unfold reconstruction_loss, binary_loss, binary_cross_entropy; simpl.
    unfold in01b; destruct (Rle_dec 0 1); [|lra]; destruct (Rle_dec 1 1); [|lra].
    destruct (Rle_dec 0 0); [|lra]; simpl.
    unfold sum_dim0, bzip; simpl; unfold bce_elem.
    replace (1 - 1) with 0 by ring; replace (1 - 0) with 1 by ring; rewrite clog_1.
    do 3 f_equal; unfold vadd; simpl; repeat f_equal; ring. }
  split; [exact H1|]; split; [exact H2|]; split; [exact H3|].
  exact (reconstruction_loss_bounds [[1; 0]] [[1; 0]] 2 _ H1 H2 H3).
Defined.

Lemma in01b_binary t : t = 0 \/ t = 1 -> in01b t = true.
Proof.
  unfold in01b; intros Ht; destruct (Rle_dec 0 t), (Rle_dec t 1); auto; lra.
Qed.

Lemma vadd_repeat0 n : vadd (repeat 0 n) (repeat 0 n) = repeat 0 n.
Proof. unfold vadd; induction n; simpl; [|rewrite IHn, Rplus_0_r]; reflexivity. Qed.

(** Reconstructing a batch of binary pixels exactly costs nothing: the
    loss vector is all zeros and the averaged loss is [0] (the clamp turns
    [0 * log 0] into [0 * -100] rather than NaN). *)
Theorem reconstruction_loss_perfect x D
  (Hx : Forall (fun r => length r = D) x)
  (Hb : Forall (Forall (fun t => t = 0 \/ t = 1)) x)
  (Hne : length (concat x) <> 0%nat) :
  reconstruction_loss x x false = Some (inl (repeat 0 D))
  /\ reconstruction_loss x x true = Some (inr 0).
Proof.
  assert (Hz : bzip bce_elem x x = map (fun r => repeat 0 D) x).
  { unfold bzip; clear Hne; induction Hb as [|r x Hr Hx' IH]; simpl; [reflexivity|].
    inversion Hx as [|? ? Hl Hxs]; subst; rewrite (IH Hxs); f_equal.
    clear -Hr; induction Hr as [|t r Ht Hr IH]; simpl; [reflexivity|].
    rewrite bce_elem_binary, IH by exact Ht; reflexivity. }
  assert (Hin : forallb (forallb in01b) x = true).
  { apply forallb_forall; intros r Hr; apply forallb_forall; intros t Ht.
    apply in01b_binary; exact (proj1 (Forall_forall _ _) (proj1 (Forall_forall _ _) Hb r Hr) t Ht). }
  assert (Hs : sum_dim0 (map (fun r => repeat 0 D) x) = repeat 0 D).
  { assert (Hf : forall l, fold_right vadd (repeat 0 D) (map (fun _ : row => repeat 0 D) l)
                           = repeat 0 D).
    { induction l as [|r l IH]; cbn [map fold_right]; [reflexivity|].
      rewrite IH; apply vadd_repeat0. }
    unfold sum_dim0; destruct x as [|r x]; [simpl in Hne; congruence|].
    cbn [map hd]; rewrite repeat_length; exact (Hf (r :: x)). }
  unfold reconstruction_loss, binary_loss, binary_cross_entropy.
  destruct (length x =? 0)%nat eqn:E;
    [apply Nat.eqb_eq, length_zero_iff_nil in E; subst x; simpl in Hne; congruence|].
  destruct (list_eq_dec _ _ _) as [_|C]; [|congruence].
  rewrite Hin, Hz, Hs, rsum_repeat0; split; [reflexivity|].
  unfold Rdiv; rewrite Rmult_0_l; reflexivity.
Qed.

Lemma reconstruction_loss_perfect_witness :
  Forall (fun r : row => length r = 2%nat) [[1; 0]]
  /\ Forall (Forall (fun t => t = 0 \/ t = 1)) [[1; 0]]
  /\ length (concat [[1; 0]]) <> 0%nat
  /\ reconstruction_loss [[1; 0]] [[1; 0]] true = Some (inr 0).
Proof.
  assert (H1 : Forall (fun r : row => length r = 2%nat) [[1; 0]]) by repeat constructor.
  assert (H2 : Forall (Forall (fun t => t = 0 \/ t = 1)) [[1; 0]]) by (repeat constructor; auto).
  assert (H3 : length (concat [[1; 0]]) <> 0%nat) by (simpl; lia).
  split; [exact H1|]; split; [exact H2|]; split; [exact H3|].
  exact (proj2 (reconstruction_loss_perfect [[1; 0]] 2 H1 H2 H3)).
Defined.

(** ** [plot_batch] *)

(** An image of the batch: [C] channels of [H] rows of [W] pixels. *)
Abbreviation image := (list (list (list R))).

Section PlotBatch.
Local Open Scope nat_scope.
Local Open Scope bool_scope.

(** [torch.sum(batch[b], 0)] at pixel [(i, j)]. *)
Definition chan_sum (img : image) (i j : nat) : R :=
  rsum (map (fun ch => nth j (nth i ch []) 0%R) img).

(** [img[r_p:(r_p+H), c_p:(c_p+W)] = tile] on an [nr] x [nc] array: the
    slice is clipped to the array, and is written only at the pixels inside
    both the slice and the array. *)
Definition paste (img : nat -> nat -> R) (nr nc r_p c_p H W : nat) (tile : nat -> nat -> R)
    : nat -> nat -> R :=
  fun i j =>
    if (r_p <=? i) && (i <? r_p + H) && (i <? nr) && (c_p <=? j) && (j <? c_p + W) && (j <? nc)
    then tile (i - r_p) (j - c_p) else img i j.

(** numpy's broadcasting of an [H] x [W] value into a slice of [th] x [tw]
    pixels: each dimension must agree or be [1] in the value. *)
Definition broadcastable (H W th tw : nat) : bool :=
  ((th =? H) || (H =? 1)) && ((tw =? W) || (W =? 1)).

(** [for b in range(batch.shape[0])] from image number [b] on; [int(b / nslices)]
    and [b % nslices] raise [ZeroDivisionError] when [nslices = 0]. *)
Fixpoint plot_loop (H W ns : nat) (bt : list image) (b : nat) (img : nat -> nat -> R)
    : option (nat -> nat -> R) :=
  match bt with
  | [] => Some img
  | im :: rest =>
      if ns =? 0 then None
      else
        let nr := (H + 1) * ns in
        let nc := (W + 1) * ns in
        let row := b / ns in
        let col := b mod ns in
        let r_p := row * H + row in
        let c_p := col * W + col in
        let th := Nat.min (r_p + H) nr - Nat.min r_p nr in
        let tw := Nat.min (c_p + W) nc - Nat.min c_p nc in
        if broadcastable H W th tw
        then plot_loop H W ns rest (S b) (paste img nr nc r_p c_p H W (chan_sum im))
        else None
  end.

(** [plot_batch(batch, nslices)] for a batch of shape [(B, C, H, W)]:
    the array it hands to [plt.imshow], as a list of rows. *)
Definition plot_batch (H W : nat) (bt : list image) (ns : nat) : option (list (list R)) :=
  let nr := (H + 1) * ns in
  let nc := (W + 1) * ns in
  match plot_loop H W ns bt 0 (fun _ _ => 0%R) with
  | Some img => Some (map (fun i => map (fun j => img i j) (seq 0 nc)) (seq 0 nr))
  | None => None
  end.

(** The pixel [(i, j)] of the mosaic once the first [k] images are placed:
    tile number [(i / (H+1)) * ns + j / (W+1)], at offset
    [(i mod (H+1), j mod (W+1))], or [0] on the separating lines. *)
Definition mosaic (H W ns : nat) (bt : list image) (k i j : nat) : R :=
  let b := i / (H + 1) * ns + j / (W + 1) in
  if (i mod (H + 1) <? H) && (j mod (W + 1) <? W) && (j / (W + 1) <? ns) && (b <? k)
  then chan_sum (nth b bt []) (i mod (H + 1)) (j mod (W + 1))
  else 0%R.

Lemma in_block i q d h : h < d -> (q * d <= i < q * d + h <-> i / d = q /\ i mod d < h).
Proof.
  intros Hh; split.
  - intros Hi.
    assert (E : i = d * q + (i - q * d)) by lia.
    split; [symmetry; apply (Nat.div_unique i d q (i - q * d)); lia|].
    rewrite <- (Nat.mod_unique i d q (i - q * d)); lia.
  - intros [Hq Hr]; pose proof (Nat.div_mod_eq i d); subst q; nia.
Qed.

Lemma div_lt_bound a d q : d <> 0 -> a < d * q -> a / d < q.
Proof.
  intros Hd Ha; pose proof (Nat.div_mod_eq a d); pose proof (Nat.mod_upper_bound a d Hd).
  destruct (Nat.lt_ge_cases (a / d) q) as [Hl | Hl]; [exact Hl|]; nia.
Qed.

Lemma tile_region H W ns b i j :
  0 < ns -> b < ns * ns ->
  ((b / ns * H + b / ns <=? i) && (i <? b / ns * H + b / ns + H) && (i <? (H + 1) * ns)
   && (b mod ns * W + b mod ns <=? j) && (j <? b mod ns * W + b mod ns + W)
   && (j <? (W + 1) * ns))
  = (i mod (H + 1) <? H) && (j mod (W + 1) <? W) && (j / (W + 1) <? ns)
    && (i / (H + 1) * ns + j / (W + 1) =? b).
Proof.
  intros Hns Hb.
  assert (Hq : b / ns < ns) by (apply div_lt_bound; lia).
  pose proof (Nat.mod_upper_bound b ns ltac:(lia)) as Hr.
  pose proof (Nat.div_mod_eq b ns) as Eb.
  pose proof (in_block i (b / ns) (H + 1) H ltac:(lia)) as Ri.
  pose proof (in_block j (b mod ns) (W + 1) W ltac:(lia)) as Rj.
  apply Bool.eq_true_iff_eq; rewrite !Bool.andb_true_iff, !Nat.leb_le, !Nat.ltb_lt, Nat.eqb_eq.
  split.
  - intros (((((H1 & H2) & H3) & H4) & H5) & H6).
    destruct (proj1 Ri ltac:(lia)) as [Ei Mi]; destruct (proj1 Rj ltac:(lia)) as [Ej Mj].
    rewrite Ei, Ej; repeat split; lia.
  - intros (((Mi & Mj) & Jn) & Eq).
    assert (Ej : j / (W + 1) = b mod ns)
      by (apply (Nat.mod_unique b ns (i / (H + 1))); lia).
    assert (Ei : i / (H + 1) = b / ns)
      by (apply (Nat.div_unique b ns (i / (H + 1)) (j / (W + 1))); lia).
    destruct (proj2 Ri (conj Ei Mi)); destruct (proj2 Rj (conj Ej Mj)).
    assert (i < (H + 1) * ns) by nia. assert (j < (W + 1) * ns) by nia.
    repeat split; lia.
Qed.

Lemma in_block_offset i q d : i / d = q -> i - q * d = i mod d.
Proof. intros <-; pose proof (Nat.div_mod_eq i d); lia. Qed.

Lemma paste_mosaic H W ns bt b i j :
  0 < ns -> b < ns * ns ->
  paste (mosaic H W ns bt b) ((H + 1) * ns) ((W + 1) * ns)
    (b / ns * H + b / ns) (b mod ns * W + b mod ns) H W (chan_sum (nth b bt [])) i j
  = mosaic H W ns bt (S b) i j.
Proof.
  intros Hns Hb; unfold paste; rewrite tile_region by assumption.
  unfold mosaic.
  destruct (i mod (H + 1) <? H) eqn:Mi; [|reflexivity].
  destruct (j mod (W + 1) <? W) eqn:Mj; [|reflexivity].
  destruct (j / (W + 1) <? ns) eqn:Jn; [|reflexivity]; cbn [andb].
  destruct (i / (H + 1) * ns + j / (W + 1) =? b) eqn:E.
  - apply Nat.eqb_eq in E.
    replace (i / (H + 1) * ns + j / (W + 1) <? S b) with true by (symmetry; apply Nat.ltb_lt; lia).
    apply Nat.ltb_lt in Mi, Mj, Jn.
    assert (Ej : j / (W + 1) = b mod ns) by (apply (Nat.mod_unique b ns (i / (H + 1))); lia).
    assert (Ei : i / (H + 1) = b / ns)
      by (apply (Nat.div_unique b ns (i / (H + 1)) (j / (W + 1))); lia).
    rewrite E.
    replace (i - (b / ns * H + b / ns)) with (i mod (H + 1))
      by (rewrite <- (in_block_offset i (b / ns) (H + 1) Ei); lia).
    replace (j - (b mod ns * W + b mod ns)) with (j mod (W + 1))
      by (rewrite <- (in_block_offset j (b mod ns) (W + 1) Ej); lia).
    reflexivity.
  - apply Nat.eqb_neq in E.
    destruct (i / (H + 1) * ns + j / (W + 1) <? b) eqn:L;
      [apply Nat.ltb_lt in L | apply Nat.ltb_ge in L].
    + replace (i / (H + 1) * ns + j / (W + 1) <? S b) with true
        by (symmetry; apply Nat.ltb_lt; lia); reflexivity.
    + replace (i / (H + 1) * ns + j / (W + 1) <? S b) with false
        by (symmetry; apply Nat.ltb_ge; lia); reflexivity.
Qed.

Lemma plot_loop_mosaic H W ns bt :
  0 < ns -> length bt <= ns * ns ->
  forall rest b img, skipn b bt = rest -> (forall i j, img i j = mosaic H W ns bt b i j) ->
  exists g, plot_loop H W ns rest b img = Some g
    /\ forall i j, g i j = mosaic H W ns bt (length bt) i j.
Proof.
  intros Hns Hlen rest; induction rest as [|im rest IH]; intros b img Hs Himg; simpl.
  - exists img; split; [reflexivity|].
    intros i j; rewrite Himg.
    assert (Hb : length bt <= b).
    { destruct (Nat.le_gt_cases (length bt) b) as [Hle | Hgt]; [exact Hle|].
      pose proof (length_skipn b bt) as L; rewrite Hs in L; simpl in L; lia. }
    unfold mosaic.
    destruct ((i mod (H + 1) <? H) && (j mod (W + 1) <? W) && (j / (W + 1) <? ns)); [|reflexivity].
    cbn [andb].
    destruct (i / (H + 1) * ns + j / (W + 1) <? b) eqn:L1.
    + apply Nat.ltb_lt in L1.
      destruct (i / (H + 1) * ns + j / (W + 1) <? length bt) eqn:L2; [reflexivity|].
      rewrite nth_overflow by (apply Nat.ltb_ge in L2; lia).
      reflexivity.
    + apply Nat.ltb_ge in L1.
      replace (i / (H + 1) * ns + j / (W + 1) <? length bt) with false
        by (symmetry; apply Nat.ltb_ge; lia); reflexivity.
  - assert (Hnb : nth b bt [] = im /\ skipn (S b) bt = rest).
    { clear -Hs; revert bt Hs; induction b as [|b IHb]; intros [|x bt] Hs; simpl in *;
        try discriminate.
      - injection Hs as -> ->; split; reflexivity.
      - apply IHb; exact Hs. }
    destruct Hnb as [Hnth Hrest].
    assert (Hbb : b < ns * ns).
    { pose proof (length_skipn b bt) as L; rewrite Hs in L; simpl in L; lia. }
    replace (ns =? 0) with false by (symmetry; apply Nat.eqb_neq; lia).
    cbn zeta.
    assert (Hbr : broadcastable H W
        (Nat.min (b / ns * H + b / ns + H) ((H + 1) * ns) - Nat.min (b / ns * H + b / ns) ((H + 1) * ns))
        (Nat.min (b mod ns * W + b mod ns + W) ((W + 1) * ns)
           - Nat.min (b mod ns * W + b mod ns) ((W + 1) * ns)) = true).
    { assert (Hq : b / ns < ns) by (apply div_lt_bound; lia).
      pose proof (Nat.mod_upper_bound b ns ltac:(lia)) as Hr.
      unfold broadcastable.
      rewrite (Nat.min_l (b / ns * H + b / ns + H)) by nia.
      rewrite (Nat.min_l (b / ns * H + b / ns)) by nia.
      rewrite (Nat.min_l (b mod ns * W + b mod ns + W)) by nia.
      rewrite (Nat.min_l (b mod ns * W + b mod ns)) by nia.
      rewrite Nat.add_sub_swap, Nat.sub_diag, Nat.add_0_l by lia.
      rewrite Nat.add_sub_swap, Nat.sub_diag, Nat.add_0_l by lia.
      rewrite !Nat.eqb_refl; reflexivity. }
    rewrite Hbr.
    apply (IH (S b)); [exact Hrest|].
    intros i j; rewrite <- paste_mosaic by assumption.
    unfold paste; rewrite Hnth, Himg; reflexivity.
Qed.

Lemma plot_tile_fits H W ns b :
  0 < ns -> b < ns * ns ->
  broadcastable H W
    (Nat.min (b / ns * H + b / ns + H) ((H + 1) * ns) - Nat.min (b / ns * H + b / ns) ((H + 1) * ns))
    (Nat.min (b mod ns * W + b mod ns + W) ((W + 1) * ns)
       - Nat.min (b mod ns * W + b mod ns) ((W + 1) * ns)) = true.
Proof.
  intros Hns Hb.
  assert (Hq : b / ns < ns) by (apply div_lt_bound; lia).
  pose proof (Nat.mod_upper_bound b ns ltac:(lia)) as Hr.
  unfold broadcastable.
  rewrite (Nat.min_l (b / ns * H + b / ns + H)) by nia.
  rewrite (Nat.min_l (b / ns * H + b / ns)) by nia.
  rewrite (Nat.min_l (b mod ns * W + b mod ns + W)) by nia.
  rewrite (Nat.min_l (b mod ns * W + b mod ns)) by nia.
  rewrite Nat.add_sub_swap, Nat.sub_diag, Nat.add_0_l by lia.
  rewrite Nat.add_sub_swap, Nat.sub_diag, Nat.add_0_l by lia.
  rewrite !Nat.eqb_refl; reflexivity.
Qed.

Lemma plot_tile_outside H W ns b :
  0 < ns -> ns * ns <= b -> 2 <= H ->
  broadcastable H W
    (Nat.min (b / ns * H + b / ns + H) ((H + 1) * ns) - Nat.min (b / ns * H + b / ns) ((H + 1) * ns))
    (Nat.min (b mod ns * W + b mod ns + W) ((W + 1) * ns)
       - Nat.min (b mod ns * W + b mod ns) ((W + 1) * ns)) = false.
Proof.
  intros Hns Hb HH.
  assert (Hq : ns <= b / ns) by (apply Nat.div_le_lower_bound; lia).
  unfold broadcastable.
  rewrite (Nat.min_r (b / ns * H + b / ns + H)) by nia.
  rewrite (Nat.min_r (b / ns * H + b / ns)) by nia.
  rewrite Nat.sub_diag.
  replace (0 =? H) with false by (symmetry; apply Nat.eqb_neq; lia).
  replace (H =? 1) with false by (symmetry; apply Nat.eqb_neq; lia).
  reflexivity.
Qed.

(** [plot_batch] with [nslices > 0] and at most [nslices^2] images lays
    them out as a mosaic: the array has [(H+1)*nslices] rows of
    [(W+1)*nslices] pixels; image [b] fills the [H] x [W] block at row
    [(b / nslices) * (H+1)] and column [(b mod nslices) * (W+1)] with its
    channel sums; every other pixel (the separating lines and the unused
    blocks) is [0]. *)
Theorem plot_batch_layout H W ns bt (Hns : 0 < ns) (Hb : length bt <= ns * ns) :
  plot_batch H W bt ns
  = Some (map (fun i => map (fun j => mosaic H W ns bt (length bt) i j) (seq 0 ((W + 1) * ns)))
              (seq 0 ((H + 1) * ns))).
Proof.
  destruct (plot_loop_mosaic H W ns bt Hns Hb bt 0 (fun _ _ => 0%R) eq_refl) as (g & Hg & Eg).
  { intros i j; unfold mosaic.
    destruct ((i mod (H + 1) <? H) && (j mod (W + 1) <? W) && (j / (W + 1) <? ns)); reflexivity. }
  unfold plot_batch; rewrite Hg; f_equal.
  apply map_ext; intros i; apply map_ext; intros j; apply Eg.
Qed.

Lemma plot_batch_layout_witness :
  (0 < 1 /\ length [[[[1%R]]]; [[[2%R]]]] <= 2 * 2)
  /\ plot_batch 1 1 [[[[1%R]]]; [[[2%R]]]] 2
     = Some (map (fun i => map (fun j => mosaic 1 1 2 [[[[1%R]]]; [[[2%R]]]] 2 i j) (seq 0 4)) (seq 0 4)).
Proof.
  split; [simpl; lia|].
  apply (plot_batch_layout 1 1 2 [[[[1%R]]]; [[[2%R]]]]); simpl; lia.
Defined.

Lemma plot_loop_overflow H W ns :
  0 < ns -> 2 <= H ->
  forall rest b, b <= ns * ns < b + length rest -> forall img, plot_loop H W ns rest b img = None.
Proof.
  intros Hns HH rest; induction rest as [|im rest IH]; intros b Hb img'; simpl in *; [lia|].
  replace (ns =? 0) with false by (symmetry; apply Nat.eqb_neq; lia); cbn zeta.
  destruct (Nat.lt_ge_cases b (ns * ns)) as [Hlt | Hge].
  - rewrite plot_tile_fits by assumption; apply IH; lia.
  - rewrite plot_tile_outside by assumption; reflexivity.
Qed.

(** [plot_batch] raises when [nslices = 0] and the batch is not empty
    ([ZeroDivisionError]), and when it holds more than [nslices^2] images
    of height [H >= 2]: the block of image [nslices^2] starts below the
    array, and numpy cannot broadcast an [H]-row image into the empty
    slice. *)
Theorem plot_batch_errors H W ns bt :
  (ns = 0 -> bt <> [] -> plot_batch H W bt ns = None)
  /\ (0 < ns -> ns * ns < length bt -> 2 <= H -> plot_batch H W bt ns = None).
Proof.
  split.
  - intros -> Hne; unfold plot_batch; destruct bt as [|im bt]; [congruence|]; reflexivity.
  - intros Hns Hlen HH; unfold plot_batch.
    rewrite (plot_loop_overflow H W ns Hns HH bt 0) by lia; reflexivity.
Qed.

End PlotBatch.

(** ** [evaluate_nll_bpd] *)

Section EvaluateNLL.

(** The model is called as [model(x)] and returns [(x_tilde, kl_div)]; it
    samples its latents, so each call reads and advances a state [St]
    (the random generator among others), and it may raise. *)
Context {St : Type} (model : St -> batch -> option (batch * R * St)).

(** The value bound to [x] inside the loop: first a data batch of images,
    then the (batch, D) matrix the loop body assigns to it. *)
Inductive tensor :=
| Imgs (l : list image)
| Mat (m : batch).

(** An image flattened as [view(1, -1)] reads it: channel by channel,
    row by row. *)
Definition flatten_img (img : image) : row := concat (concat img).

(** [x[j]]; [None] when [j] is out of range ([IndexError]). *)
Definition pick (x : tensor) (j : nat) : option row :=
  match x with
  | Imgs l => match nth_error l j with Some img => Some (flatten_img img) | None => None end
  | Mat m => nth_error m j
  end.

(** [cur_x = x[j].unsqueeze(0); cur_x.expand(batch, ...).contiguous().view(batch, -1)];
    [view(batch, -1)] raises only for [batch = 0], where the [-1] cannot be
    inferred; an image with no pixel gives [batch] empty rows. *)
Definition expand_view (x : tensor) (j bsz : nat) : option batch :=
  match pick x j with
  | Some r => if (bsz =? 0)%nat then None else Some (repeat r bsz)
  | None => None
  end.

(** [for r in range(0, R)] with [k] iterations left: [x] is rebound to the
    expanded batch, the model is called, and [-(rec + kl_div)] is appended
    to [a]. *)
Fixpoint r_loop (k j bsz : nat) (x : tensor) (st : St) (a : list row)
    : option (tensor * St * list row) :=
  match k with
  | O => Some (x, st, a)
  | S k' =>
      match expand_view x j bsz with
      | None => None
      | Some xm =>
          match model st xm with
          | None => None
          | Some (x_tilde, kl_div, st') =>
              match reconstruction_loss x_tilde xm false with
              | Some (inl rec) =>
                  r_loop k' j bsz (Mat xm) st' (a ++ [map (fun v => - (v + kl_div)) rec])
              | _ => None
              end
          end
      end
  end.

(** [logsumexp(a) - np.log(len(a))] of the [R * D] values of [a], once
    reshaped into a column; with [R = 0], [np.asarray([])] has no second
    dimension and [a.shape[1]] raises. *)
Definition likelihood (a : list row) : option R :=
  match a with
  | [] => None
  | _ => let v := concat a in Some (ln (rsum (map exp v)) - ln (INR (length v)))
  end.

(** [for j in range(x.shape[0])] from [j] on, [k] iterations left;
    [x] keeps the value the previous iteration bound to it. *)
Fixpoint j_loop (k j bsz Rn : nat) (x : tensor) (st : St) (tests : list R)
    : option (St * list R) :=
  match k with
  | O => Some (st, tests)
  | S k' =>
      match r_loop Rn j bsz x st [] with
      | None => None
      | Some (x', st', a) =>
          match likelihood a with
          | None => None
          | Some lx => j_loop k' (S j) bsz Rn x' st' (tests ++ [lx])
          end
      end
  end.

(** [for batch_idx, (x, _) in enumerate(data_loader)]: the list
    [likelihood_test] the function averages into [nll]. *)
Fixpoint data_loop {L : Type} (data : list (list image * L)) (bsz Rn : nat) (st : St)
    (tests : list R) : option (St * list R) :=
  match data with
  | [] => Some (st, tests)
  | (x, _) :: rest =>
      match j_loop (length x) 0 bsz Rn (Imgs x) st tests with
      | None => None
      | Some (st', tests') => data_loop rest bsz Rn st' tests'
      end
  end.

Definition likelihood_tests {L : Type} (data : list (list image * L)) (bsz Rn : nat) (st : St)
    : option (St * list R) :=
  data_loop data bsz Rn st [].

Lemma j_loop_first_image x1 x2 bsz Rn st tests :
  length x1 = length x2 -> nth_error x1 0 = nth_error x2 0 ->
  j_loop (length x1) 0 bsz Rn (Imgs x1) st tests = j_loop (length x2) 0 bsz Rn (Imgs x2) st tests.
Proof.
  intros Hl H0; rewrite <- Hl.
  destruct (length x1) as [|k]; [reflexivity|].
  destruct Rn as [|Rn]; [reflexivity|].
  cbn [j_loop r_loop]; unfold expand_view; cbn [pick]; rewrite H0; reflexivity.
Qed.

(** [evaluate_nll_bpd] only ever reads the first image of each data
    batch: [x] is rebound inside the loop to [batch] copies of [x[0]], so
    [x[j]] for [j >= 1] is again [x[0]]. Two data loaders whose batches have
    the same sizes and the same first images give the same likelihoods
    (and the same errors). *)
Theorem likelihood_tests_first_image {L : Type} (d1 d2 : list (list image * L)) bsz Rn st
  (Hd : Forall2 (fun b1 b2 => length (fst b1) = length (fst b2)
                              /\ nth_error (fst b1) 0 = nth_error (fst b2) 0) d1 d2) :
  likelihood_tests d1 bsz Rn st = likelihood_tests d2 bsz Rn st.
Proof.
  unfold likelihood_tests; generalize (@nil R) as tests; revert st.
  induction Hd as [|[x1 l1] [x2 l2] d1 d2 [Hl H0] _ IH]; intros st tests; [reflexivity|].
  cbn [data_loop fst] in *.
  rewrite (j_loop_first_image x1 x2 bsz Rn st tests Hl H0).
  destruct (j_loop _ _ _ _ _ _ _) as [[st' tests']|]; [apply IH | reflexivity].
Qed.

End EvaluateNLL.

(** ** The grid of points of the first cell *)

(** [np.meshgrid(x, y)] ([indexing='xy']): [X[i][j] = x[j]], [Y[i][j] = y[i]]. *)
Definition meshgrid (x y : list R) : list (list (list R)) :=
  [map (fun _ => x) y; map (fun yi => map (fun _ => yi) x) y].

(** [a.transpose(1, 2, 0)] of a (C, N, M) array: [t[i][j][c] = a[c][i][j]]. *)
Definition transpose_120 (a : list (list (list R))) : list (list (list R)) :=
  let N := length (hd [] a) in
  let M := length (hd [] (hd [] a)) in
  map (fun i => map (fun j => map (fun ch => nth j (nth i ch []) 0) a) (seq 0 M)) (seq 0 N).

(** [np.reshape(z, [z.shape[0] * z.shape[1], -1])] of an (N, M, C) array:
    its N*M cells in row-major order; [-1] cannot be inferred for an
    array with no element. *)
Definition reshape_cells (z : list (list (list R))) : option (list (list R)) :=
  let rows := concat z in
  if (length (concat rows) =? 0)%nat then None else Some rows.

(** [z] of the first cell, for the points [x]. *)
Definition grid (x : list R) : option (list (list R)) :=
  reshape_cells (transpose_120 (meshgrid x x)).

Lemma nth_concat_blocks {A} (f : nat -> nat -> A) n d : forall N s k,
  (k < N * n)%nat ->
  nth k (concat (map (fun i => map (f i) (seq 0 n)) (seq s N))) d = f (s + k / n)%nat (k mod n).
Proof.
  induction N as [|N IH]; intros s k Hk; [lia|].
  assert (Hn : (0 < n)%nat) by nia.
  cbn [seq map concat].
  destruct (Nat.lt_ge_cases k n) as [Hlt | Hge].
  - rewrite app_nth1 by (rewrite length_map, length_seq; lia).
    rewrite (nth_map_lt _ _ _ 0%nat) by (rewrite length_seq; lia).
    rewrite seq_nth by lia.
    rewrite Nat.div_small, Nat.mod_small by lia; f_equal; lia.
  - rewrite app_nth2 by (rewrite length_map, length_seq; lia).
    rewrite length_map, length_seq, IH by nia.
    assert (E1 : (k / n = S ((k - n) / n))%nat).
    { replace k with (k - n + 1 * n)%nat at 1 by lia; rewrite Nat.div_add by lia; lia. }
    assert (E2 : (k mod n = (k - n) mod n)%nat).
    { replace k with (k - n + 1 * n)%nat at 1 by lia; apply Nat.Div0.mod_add. }
    rewrite E1, E2; f_equal; lia.
Qed.

Lemma list_sum_const {A} c (l : list A) : list_sum (map (fun _ => c) l) = (length l * c)%nat.
Proof. induction l as [|a l IH]; simpl; [reflexivity|]; rewrite IH; reflexivity. Qed.

Lemma transpose_meshgrid x :
  x <> [] ->
  transpose_120 (meshgrid x x)
  = map (fun i => map (fun j => [nth j x 0; nth i x 0]) (seq 0 (length x))) (seq 0 (length x)).
Proof.
  intros Hx; unfold transpose_120, meshgrid; cbn [hd].
  assert (Hh : hd [] (map (fun _ : R => x) x) = x) by (destruct x; [congruence | reflexivity]).
  rewrite Hh, length_map.
  apply map_ext_in; intros i Hi; apply in_seq in Hi.
  apply map_ext_in; intros j Hj; apply in_seq in Hj.
  cbn [map].
  rewrite (nth_map_lt _ x i 0) by lia.
  rewrite (nth_map_lt _ x i 0) by lia.
  rewrite (nth_map_lt _ x j 0) by lia.
  reflexivity.
Qed.

(** The grid [z] of the first cell, for [n >= 1] points [x], has [n^2]
    rows; row [k] is the point [(x[k mod n], x[k div n])]: the first
    coordinate runs fastest. *)
Theorem grid_layout x (Hx : x <> []) :
  exists g, grid x = Some g
    /\ length g = (length x * length x)%nat
    /\ forall k, (k < length x * length x)%nat ->
         nth k g [] = [nth (k mod length x) x 0; nth (k / length x) x 0].
Proof.
  assert (Hn : (0 < length x)%nat) by (destruct x; [congruence | simpl; lia]).
  unfold grid, reshape_cells; rewrite transpose_meshgrid by exact Hx; cbv zeta.
  set (g := concat (map _ (seq 0 (length x)))).
  assert (Hg : length g = (length x * length x)%nat).
  { unfold g; rewrite length_concat, map_map.
    rewrite (map_ext _ (fun _ => length x)) by (intros i; rewrite length_map, length_seq; reflexivity).
    rewrite list_sum_const, length_seq; reflexivity. }
  assert (H0 : nth 0 g [] = [nth 0 x 0; nth 0 x 0]).
  { unfold g; rewrite nth_concat_blocks by nia.
    rewrite Nat.Div0.div_0_l, Nat.Div0.mod_0_l; reflexivity. }
  assert (Hk : forall k, (k < length x * length x)%nat ->
            nth k g [] = [nth (k mod length x) x 0; nth (k / length x) x 0]).
  { intros k Hk; unfold g; rewrite nth_concat_blocks by exact Hk; reflexivity. }
  clearbody g.
  assert (Hc : length (concat g) <> 0%nat).
  { destruct g as [|r g']; [simpl in Hg; nia|].
    simpl in H0; subst r; simpl; lia. }
  replace (length (concat g) =? 0)%nat with false by (symmetry; apply Nat.eqb_neq; exact Hc).
  exists g; split; [reflexivity|]; split; [exact Hg | exact Hk].
Qed.

Lemma grid_layout_witness :
  [1; 2] <> [] /\ exists g, grid [1; 2] = Some g /\ length g = 4%nat.
Proof.
  split; [discriminate|].
  destruct (grid_layout [1; 2] ltac:(discriminate)) as (g & H1 & H2 & _).
  exists g; split; [exact H1 | exact H2].
Defined.

Lemma likelihood_tests_first_image_witness :
  let model := fun (st : nat) (xm : batch) => Some (xm, 0, S st) in
  let d1 := [([[[[1]]]; [[[2]]]], 0%nat)] in
  let d2 := [([[[[1]]]; [[[3]]]], 1%nat)] in
  Forall2 (fun b1 b2 : list image * nat => length (fst b1) = length (fst b2)
                           /\ nth_error (fst b1) 0 = nth_error (fst b2) 0) d1 d2
  /\ likelihood_tests model d1 2 1 0%nat = likelihood_tests model d2 2 1 0%nat.
Proof.
  intros model d1 d2.
  assert (H : Forall2 (fun b1 b2 : list image * nat => length (fst b1) = length (fst b2)
                           /\ nth_error (fst b1) 0 = nth_error (fst b2) 0) d1 d2)
    by (repeat constructor).
  split; [exact H | exact (likelihood_tests_first_image model d1 d2 2 1 0%nat H)].
Defined.
